(** * LunaUI: Menu and DataGrid (src/menu/index.ts)

    A shallow embedding of the two widgets' logic: the natural-order
    comparator, the column-weight layout, weight inference, header-click
    sorting, menu positioning and the submenu state machine.

    Conventions.
    - A JavaScript string is a [string]: each [ascii] is one code unit
      (code units below 256).
    - The numbers the comparator produces are integer-valued doubles or
      infinities; they are modelled exactly by [JS.number].
    - Pixel coordinates and column weights are doubles in the source; they
      are modelled as exact rationals ([Q]) or integers ([Z]) where the DOM
      attribute is an integer ([offsetWidth], rounded offsets). *)

From Stdlib Require Import ZArith QArith Qminmax Qround Lia Lqa Bool Ascii String Sorted.
From stdpp Require Import base option list gmap strings.

Local Open Scope Z_scope.

(** ** JavaScript values used by the widgets *)

Module JS.

(** Number values that occur in the comparator: integers representable as
    a double, the two infinities and NaN. *)
Inductive number : Type :=
  | Fin (z : Z)
  | PosInf
  | NegInf
  | NaN.

(** Round a non-negative integer to 53 significant bits, ties to even. *)
Definition round53 (n : Z) : Z :=
  if n <? 2 ^ 53 then n
  else
    let e := Z.log2 n - 52 in
    let q := Z.shiftr n e in
    let r := n - Z.shiftl q e in
    let half := Z.shiftl 1 (e - 1) in
    let q' := if (half <? r) || ((r =? half) && Z.odd q) then q + 1 else q in
    Z.shiftl q' e.

(** The double nearest to an integer; magnitudes that round to 2^1024
    overflow to an infinity. *)
Definition toDouble (z : Z) : number :=
  let m := round53 (Z.abs z) in
  if 2 ^ 1024 <=? m then (if z <? 0 then NegInf else PosInf)
  else Fin (Z.sgn z * m).

(** [x - y] on numbers. *)
Definition sub (x y : number) : number :=
  match x, y with
  | NaN, _ | _, NaN => NaN
  | PosInf, PosInf | NegInf, NegInf => NaN
  | PosInf, _ | _, NegInf => PosInf
  | NegInf, _ | _, PosInf => NegInf
  | Fin a, Fin b => toDouble (a - b)
  end.

(** ToBoolean on numbers: 0 and NaN are falsy. *)
Definition truthy (x : number) : bool :=
  match x with
  | Fin z => negb (z =? 0)
  | NaN => false
  | _ => true
  end.

Definition isNaN (x : number) : bool :=
  match x with NaN => true | _ => false end.

(** [x > 0] and [x < 0]; both are false on NaN. *)
Definition gt0 (x : number) : bool :=
  match x with Fin z => 0 <? z | PosInf => true | _ => false end.

Definition lt0 (x : number) : bool :=
  match x with Fin z => z <? 0 | NegInf => true | _ => false end.

(** Number.isInteger *)
Definition isInteger (x : number) : bool :=
  match x with Fin _ => true | _ => false end.

Definition code (c : ascii) : N := N_of_ascii c.

(** [\d] *)
Definition isDigit (c : ascii) : bool :=
  ((48 <=? code c) && (code c <=? 57))%N.

(** StrWhiteSpaceChar among the code units below 256: TAB, LF, VT, FF, CR,
    SP and NBSP. *)
Definition isWhiteSpace (c : ascii) : bool :=
  (((9 <=? code c) && (code c <=? 13)) || (code c =? 32) || (code c =? 160))%N.

Fixpoint takeWhile (p : ascii -> bool) (s : string) : string :=
  match s with
  | EmptyString => EmptyString
  | String c s' => if p c then String c (takeWhile p s') else EmptyString
  end.

Fixpoint dropWhile (p : ascii -> bool) (s : string) : string :=
  match s with
  | EmptyString => EmptyString
  | String c s' => if p c then dropWhile p s' else s
  end.

Fixpoint forallb (p : ascii -> bool) (s : string) : bool :=
  match s with
  | EmptyString => true
  | String c s' => p c && forallb p s'
  end.

(** Strip StrWhiteSpace from both ends. *)
Definition trim (s : string) : string :=
  String.rev (dropWhile isWhiteSpace (String.rev (dropWhile isWhiteSpace s))).

(** The mathematical value of a run of decimal digits. *)
Fixpoint decimal (acc : Z) (s : string) : Z :=
  match s with
  | EmptyString => acc
  | String c s' => decimal (10 * acc + (Z.of_N (code c) - 48)) s'
  end.

(** ToNumber applied to a string that is either made of decimal digits
    only or contains no decimal digit at all, which are the two shapes a
    chunk of the comparator can have.  The remaining numeric literals
    (signed digits, fractions, exponents, radix prefixes) mix digits with
    other characters and are not chunks. *)
Definition toNumber (s : string) : number :=
  let t := trim s in
  if String.eqb t "" then Fin 0
  else if forallb isDigit t then toDouble (decimal 0 t)
  else if String.eqb t "Infinity" || String.eqb t "+Infinity" then PosInf
  else if String.eqb t "-Infinity" then NegInf
  else NaN.

(** [s.substring(n)] *)
Fixpoint substring (n : nat) (s : string) : string :=
  match n, s with
  | O, _ => s
  | S n', String _ s' => substring n' s'
  | S _, EmptyString => EmptyString
  end.

(** licia [startWith(str, prefix)] *)
Definition startWith (s p : string) : bool := String.prefix p s.

(** [s.length] as a number *)
Definition len (s : string) : Z := Z.of_nat (String.length s).

End JS.

(** ** DataGrid *)

Module DataGrid.
Import JS.

(** *** naturalOrderComparator *)

(** What a call produces: a returned number, or the TypeError raised by
    indexing a null match. *)
Inductive outcome : Type :=
  | Ret (v : number)
  | TypeError.

(** [s.match(/^\d+|^\D+/)]: the maximal leading run of digits, or else the
    maximal leading run of non-digits; null on the empty string. *)
Definition chunk (s : string) : option string :=
  match s with
  | EmptyString => None
  | String c _ =>
      if isDigit c then Some (takeWhile isDigit s)
      else Some (takeWhile (fun x => negb (isDigit x)) s)
  end.

(** One pass through the body of [while (true)]: either the function
    returns, or the loop goes round again with the two remainders. *)
Definition body (a b : string) : outcome + string * string :=
  match a, b with
  | EmptyString, EmptyString => inl (Ret (Fin 0))
  | EmptyString, String _ _ => inl (Ret (Fin (-1)))
  | String _ _, EmptyString => inl (Ret (Fin 1))
  | String _ _, String _ _ =>
      match chunk a, chunk b with
      | Some chunka, Some chunkb =>
          let anum := negb (isNaN (toNumber chunka)) in
          let bnum := negb (isNaN (toNumber chunkb)) in
          if anum && negb bnum then inl (Ret (Fin (-1)))
          else if bnum && negb anum then inl (Ret (Fin 1))
          else
            let next :=
              inr (substring (String.length chunka) a,
                   substring (String.length chunkb) b) in
            if anum && bnum then
              let diff := sub (toNumber chunka) (toNumber chunkb) in
              if truthy diff then inl (Ret diff)
              else if negb (len chunka =? len chunkb) then
                if negb (truthy (toNumber chunka)) && negb (truthy (toNumber chunkb))
                then inl (Ret (Fin (len chunka - len chunkb)))
                else inl (Ret (Fin (len chunkb - len chunka)))
              else next
            else if negb (String.eqb chunka chunkb) then
              inl (Ret (Fin (if String.ltb chunka chunkb then -1 else 1)))
            else next
      | _, _ => inl TypeError
      end
  end.

(** The loop, cut off after [fuel] passes ([None]). *)
Fixpoint loop (fuel : nat) (a b : string) : option outcome :=
  match fuel with
  | O => None
  | S fuel' =>
      match body a b with
      | inl r => Some r
      | inr (a', b') => loop fuel' a' b'
      end
  end.

(** The comparator on the string forms of its arguments.  The loop is
    given one pass more than the two strings have characters, which
    [loop_fuel] shows to be enough. *)
Definition naturalOrderComparator (a b : string) : option outcome :=
  if startWith a "_" && negb (startWith b "_") then Some (Ret (Fin 1))
  else if startWith b "_" && negb (startWith a "_") then Some (Ret (Fin (-1)))
  else loop (S (String.length a + String.length b)) a b.

(** *** Columns and rows *)

(** A cell value: [string | HTMLElement], or undefined when the row has no
    entry for the column. *)
Inductive value : Type :=
  | VUndefined
  | VString (s : string)
  | VElement (interface : string).

(** licia [toStr]: the empty string for null and undefined, otherwise
    [val.toString()]; an element prints as [[object <interface>]]. *)
Definition toStr (v : value) : string :=
  match v with
  | VUndefined => ""
  | VString s => s
  | VElement i => "[object " +:+ i +:+ "]"
  end.

(** A weight is a number or undefined ([weight?: number]).  Inside
    arithmetic undefined converts to NaN, which [None] also stands for. *)
Definition weightT : Type := option Q.

Record IColumn : Type := {
  id : string;
  title : string;
  weight : weightT;
  sortable : bool;
  comparator : option (value -> value -> number);
}.

Definition setWeight (w : weightT) (c : IColumn) : IColumn :=
  {| id := id c; title := title c; weight := w;
     sortable := sortable c; comparator := comparator c |}.

(** *** applyColumnWeights *)

(** [x + y] where NaN is absorbing. *)
Definition addW (x y : weightT) : weightT :=
  match x, y with
  | Some a, Some b => Some (a + b)%Q
  | _, _ => None
  end.

(** Round towards zero. *)
Definition truncate (q : Q) : Z := Z.quot (Qnum q) (Zpos (Qden q)).

(** ToInt32 of an integer: wrap into [-2^31, 2^31). *)
Definition toInt32 (z : Z) : Z := (z + 2 ^ 31) mod 2 ^ 32 - 2 ^ 31.

(** [((sum * tableWidth) / sumOfWeights) | 0].  NaN and the infinities
    (division by zero) convert to 0. *)
Definition offsetOf (sum sumOfWeights : weightT) (tableWidth : Z) : Z :=
  match sum, sumOfWeights with
  | Some s, Some t =>
      if Qeq_bool t 0 then 0
      else toInt32 (truncate (s * inject_Z tableWidth / t))
  | _, _ => 0
  end.

(** First loop: [sumOfWeights += columns[i].weight]. *)
Fixpoint sumWeights (acc : weightT) (columns : list IColumn) : weightT :=
  match columns with
  | [] => acc
  | c :: cs => sumWeights (addW acc (weight c)) cs
  end.

Definition minColumnWidth : Z := 14.

(** Second loop, from the state [(sum, lastOffset)]: the pair
    [(offset, width)] computed in each iteration. *)
Fixpoint layout (tableWidth : Z) (sumOfWeights : weightT)
    (sum : weightT) (lastOffset : Z) (columns : list IColumn) : list (Z * Z) :=
  match columns with
  | [] => []
  | column :: cs =>
      let sum' := addW sum (weight column) in
      let offset := offsetOf sum' sumOfWeights tableWidth in
      let width := Z.max (offset - lastOffset) minColumnWidth in
      (offset, width) :: layout tableWidth sumOfWeights sum' offset cs
  end.

Definition columnLayout (tableWidth : Z) (columns : list IColumn) : list (Z * Z) :=
  layout tableWidth (sumWeights (Some 0%Q) columns) (Some 0%Q) 0 columns.

(** The widths of the [<col>] elements written into the colgroup, or
    [None] when the function returns early and leaves it as it is. *)
Definition applyColumnWeights (tableWidth : Z) (columns : list IColumn)
  : option (list Z) :=
  if tableWidth <=? 0 then None
  else Some (map snd (columnLayout tableWidth columns)).

(** *** The grid *)

(** A header cell: its [data-id] (sortable columns only) and
    [data-order] attributes. *)
Record Th : Type := {
  data_id : option string;
  data_order : option string;
}.

Record Grid : Type := {
  columns : list IColumn;
  (** [columnMap[id]] is one of the column objects of [columns]; the map
      holds its position. *)
  columnMap : gmap string nat;
  columnWidthsInitialized : bool;
  (** [data] of each node, in the order of [nodes] (and of the rendered
      rows, which [renderData] and [append] keep equal to it). *)
  nodes : list (gmap string value);
  headerRow : list Th;
  (** widths of the [<col>] children of the colgroup *)
  colgroup : list Z;
}.

(** What the DOM reports when [updateWeights] runs. *)
Record Measure : Type := {
  offsetWidth : Z;            (** [container.offsetWidth] *)
  thOffsetWidth : nat -> Z;   (** [offsetWidth] of the i-th header cell *)
}.

(** [!column.weight] *)
Definition noWeight (w : weightT) : bool :=
  match w with
  | None => true
  | Some q => Qeq_bool q 0
  end.

(** The inference loop of [updateWeights], from index [i]. *)
Fixpoint inferWeights (m : Measure) (i : nat) (cols : list IColumn) : list IColumn :=
  match cols with
  | [] => []
  | column :: cs =>
      (if noWeight (weight column)
       then setWeight
              (Some (inject_Z 100 * inject_Z (thOffsetWidth m i)
                     / inject_Z (offsetWidth m))%Q) column
       else column) :: inferWeights m (S i) cs
  end.

(** The guard of the inference block. *)
Definition infers (g : Grid) (m : Measure) : bool :=
  negb (columnWidthsInitialized g) && negb (offsetWidth m =? 0).

Definition updateWeights (g : Grid) (m : Measure) : Grid :=
  let cols := if infers g m then inferWeights m 0 (columns g) else columns g in
  {| columns := cols;
     columnMap := columnMap g;
     columnWidthsInitialized := columnWidthsInitialized g || infers g m;
     nodes := nodes g;
     headerRow := headerRow g;
     colgroup := match applyColumnWeights (offsetWidth m) cols with
                 | Some ws => ws
                 | None => colgroup g
                 end |}.

(** Resize events: one [updateWeights] per measurement. *)
Definition resizes (g : Grid) (ms : list Measure) : Grid :=
  fold_left updateWeights ms g.

(** The number of calls in a run whose inference block executes. *)
Fixpoint inferenceRuns (g : Grid) (ms : list Measure) : nat :=
  match ms with
  | [] => O
  | m :: ms' =>
      ((if infers g m then 1 else 0) + inferenceRuns (updateWeights g m) ms')%nat
  end.

(** *** Sorting *)

(** [Array.prototype.sort(comparefn)].  For a comparison function that
    orders the elements consistently the result is the stable ordering in
    which [a] comes after [b] only if [comparefn(a, b) > 0]; it is computed
    here by insertion from the right. *)
Section Sort.
Context {A : Type} (comparefn : A -> A -> number).

Fixpoint insert (x : A) (l : list A) : list A :=
  match l with
  | [] => [x]
  | y :: l' => if gt0 (comparefn x y) then y :: insert x l' else x :: l
  end.

Fixpoint sort (l : list A) : list A :=
  match l with
  | [] => []
  | x :: l' => insert x (sort l')
  end.

End Sort.

(** [naturalOrderComparator] as a comparison function on cell values.
    The fallback is never taken: the call always returns a number
    ([naturalOrderComparator_returns]). *)
Definition naturalOrder (a b : value) : number :=
  match naturalOrderComparator (toStr a) (toStr b) with
  | Some (Ret v) => v
  | _ => NaN
  end.

(** [a.data[id]] *)
Definition cell (data : gmap string value) (id : string) : value :=
  default VUndefined (data !! id).

(** The function handed to [nodes.sort] by [sortNodes]. *)
Definition compareNodes (comparator : value -> value -> number)
    (id : string) (isAscending : bool) (a b : gmap string value) : number :=
  let aVal := cell a id in
  let bVal := cell b id in
  if isAscending then comparator aVal bVal else comparator bVal aVal.

Definition setNodes (ns : list (gmap string value)) (g : Grid) : Grid :=
  {| columns := columns g; columnMap := columnMap g;
     columnWidthsInitialized := columnWidthsInitialized g;
     nodes := ns; headerRow := headerRow g; colgroup := colgroup g |}.

Definition setHeaderRow (hs : list Th) (g : Grid) : Grid :=
  {| columns := columns g; columnMap := columnMap g;
     columnWidthsInitialized := columnWidthsInitialized g;
     nodes := nodes g; headerRow := hs; colgroup := colgroup g |}.

(** [this.columnMap[id]] *)
Definition lookupColumn (g : Grid) (id : string) : option IColumn :=
  columnMap g !! id ≫= λ k, columns g !! k.

(** [column.comparator || naturalOrderComparator] *)
Definition comparatorOf (column : IColumn) : value -> value -> number :=
  default naturalOrder (comparator column).

(** [sortNodes]; [None] is the TypeError of reading [comparator] from an
    undefined column. *)
Definition sortNodes (g : Grid) (id : string) (isAscending : bool) : option Grid :=
  match lookupColumn g id with
  | None => None
  | Some column =>
      Some (setNodes
              (sort (compareNodes (comparatorOf column) id isAscending) (nodes g)) g)
  end.

(** [$this.data('order', v)] *)
Definition setOrder (v : string) (th : Th) : Th :=
  {| data_id := data_id th; data_order := Some v |}.

(** [$this.rmAttr('data-order')] *)
Definition rmOrder (th : Th) : Th :=
  {| data_id := data_id th; data_order := None |}.

(** [order !== 'descending'] *)
Definition isAscendingOf (order : option string) : bool :=
  negb (bool_decide (order = Some "descending")).

(** The click handler bound by [bindEvent], for a click on the i-th header
    cell.  It is delegated to [.sortable] cells, which are the cells that
    carry [data-id]; a click elsewhere runs nothing.  [None] is the
    TypeError passed on from [sortNodes]. *)
Definition click (i : nat) (g : Grid) : option Grid :=
  match headerRow g !! i ≫= λ th, data_id th ≫= λ id, Some (th, id) with
  | None => Some g
  | Some (th, id) =>
      let order := data_order th in
      let isAscending := isAscendingOf order in
      let g1 :=
        setHeaderRow
          (<[i := setOrder (if isAscending then "descending" else "ascending") th]>
             (headerRow g)) g in
      match sortNodes g1 id isAscending with
      | None => None
      | Some g2 =>
          Some (setHeaderRow
                  (map (λ th', if bool_decide (data_id th' = Some id)
                               then th' else rmOrder th')
                       (headerRow g2)) g2)
      end
  end.

(** A sequence of header clicks. *)
Fixpoint clicks (idxs : list nat) (g : Grid) : option Grid :=
  match idxs with
  | [] => Some g
  | i :: idxs' => click i g ≫= clicks idxs'
  end.

(** *** Construction *)

(** [renderHeader]: one cell per column; sortable ones carry the id
    (written into the attribute as it is, so ids are taken to be free of
    markup characters). *)
Definition renderHeader (cols : list IColumn) : list Th :=
  map (λ column, {| data_id := if sortable column then Some (id column) else None;
                    data_order := None |}) cols.

(** [this.columnMap[column.id] = column] for each column in turn. *)
Fixpoint buildColumnMap (k : nat) (cols : list IColumn) (m : gmap string nat)
  : gmap string nat :=
  match cols with
  | [] => m
  | column :: cs => buildColumnMap (S k) cs (<[id column := k]> m)
  end.

(** The constructor, given what the DOM measures at mount. *)
Definition new (cols : list IColumn) (m : Measure) : Grid :=
  updateWeights
    {| columns := cols;
       columnMap := buildColumnMap 0 cols ∅;
       columnWidthsInitialized := false;
       nodes := [];
       headerRow := renderHeader cols;
       colgroup := [] |} m.

(** [append(data)] *)
Definition append (data : gmap string value) (g : Grid) : Grid :=
  setNodes (nodes g ++ [data]) g.

End DataGrid.

(** ** Menu *)

Module Menu.

(** Menus are objects compared by identity ([item.submenu !== this.subMenu])
    and shared between the item that holds them and the parent's [subMenu]
    field: a menu is named by a reference into a store. *)
Definition ref : Type := nat.

Inductive ItemType : Type := normal | separator | submenu_item.

#[global] Instance ItemType_eq_dec : EqDecision ItemType.
Proof. solve_decision. Defined.

Record IMenuItemOptions : Type := {
  type : option ItemType;
  label : option string;
  submenu : option ref;
  hasClick : bool;   (** whether [click] is set *)
}.

(** The style written by [positionContent]. *)
Record Css : Type := {
  width : Q;
  height : Q;
  left : Q;
  top : Q;
}.

Record Menu : Type := {
  menuItems : list IMenuItemOptions;
  subMenu : option ref;
  (** the container is in the document (a child of the glass pane) *)
  attached : bool;
  css : option Css;
}.

(** Calls that change the document tree, oldest first. *)
Inductive DomOp : Type :=
  | Remove (m : ref)   (** [m.$container.remove()] *)
  | Append (m : ref)   (** [$glassPane.append(m.container)] *)
  | Clear.             (** the glass pane is emptied and removed *)

Record World : Type := {
  heap : ref -> Menu;
  log : list DomOp;
}.

(** What the browser measures. *)
Record Dom : Type := {
  innerWidth : Q;
  innerHeight : Q;
  measuredScrollbarWidth : Q;
  (** [m.$container.offset()]: width and height *)
  containerOffset : ref -> Q * Q;
  (** [$el.offset()] of the k-th item of a menu: left, width and top *)
  itemOffset : ref -> nat -> Q * Q * Q;
  hasVerticalScrollbar : ref -> bool;
}.

Definition Qltb (x y : Q) : bool := negb (Qle_bool y x).

(** [positionContent]: [offset] is the measured size of the container and
    [parent] the measured width of the parent menu, if there is one. *)
Definition positionContent (d : Dom) (offset : Q * Q) (x y : Q)
    (parent : option Q) : Css :=
  let winWidth := innerWidth d in
  let winHeight := innerHeight d in
  let scrollbarSize := measuredScrollbarWidth d in
  let parentWidth := default 0%Q parent in
  let widthOverflow := if Qltb winHeight (snd offset) then scrollbarSize else 0%Q in
  let heightOverflow := if Qltb winWidth (fst offset) then scrollbarSize else 0%Q in
  let width := Qmin winWidth (fst offset + widthOverflow) in
  let height := Qmin winHeight (snd offset + heightOverflow) in
  let right := (winWidth - x)%Q in
  let bottom := (winHeight - y)%Q in
  let left :=
    if Qltb right width && Qltb right (x - parentWidth)
    then (x - width - parentWidth)%Q else x in
  let top :=
    if Qltb bottom height then
      if Qltb height y then
        match parent with
        | Some _ => (y - height + 30)%Q
        | None => (y - height)%Q
        end
      else (y - (height - bottom))%Q
    else y in
  {| width := width; height := height; left := left; top := top |}.

Definition update (m : ref) (f : Menu -> Menu) (w : World) : World :=
  {| heap := λ x, if decide (x = m) then f (heap w x) else heap w x;
     log := log w |}.

Definition emit (op : DomOp) (w : World) : World :=
  {| heap := heap w; log := log w ++ [op] |}.

Definition setAttached (b : bool) (o : Menu) : Menu :=
  {| menuItems := menuItems o; subMenu := subMenu o; attached := b; css := css o |}.

Definition setSubMenu (s : option ref) (o : Menu) : Menu :=
  {| menuItems := menuItems o; subMenu := s; attached := attached o; css := css o |}.

Definition setCss (c : Css) (o : Menu) : Menu :=
  {| menuItems := menuItems o; subMenu := subMenu o; attached := attached o;
     css := Some c |}.

(** [hideSubMenu], given how to run [hide]. *)
Definition hideSubMenuWith (hide : ref -> World -> option World)
    (m : ref) (w : World) : option World :=
  match subMenu (heap w m) with
  | Some s => w' ← hide s w; Some (update m (setSubMenu None) w')
  | None => Some w
  end.

(** [hide]: remove the container, then [hideSubMenu].  [fuel] bounds the
    depth of the calls; [None] is a call chain deeper than that. *)
Fixpoint hide (fuel : nat) (m : ref) (w : World) : option World :=
  match fuel with
  | O => None
  | S fuel' =>
      hideSubMenuWith (hide fuel') m (emit (Remove m) (update m (setAttached false) w))
  end.

Definition hideSubMenu (fuel : nat) : ref -> World -> option World :=
  hideSubMenuWith (hide fuel).

(** [hideAll]: the glass pane loses all its children and is removed. *)
Definition hideAll (w : World) : World :=
  emit Clear {| heap := λ x, setAttached false (heap w x); log := log w |}.

(** [show(x, y, parent)] *)
Definition show (fuel : nat) (d : Dom) (m : ref) (x y : Q) (parent : option ref)
    (w : World) : option World :=
  w1 ← hide fuel m w;
  let w2 := emit (Append m) (update m (setAttached true) w1) in
  let c := positionContent d (containerOffset d m) x y
             ((λ p, fst (containerOffset d p)) <$> parent) in
  Some (update m (setCss c) w2).

(** [showSubMenu(subMenu, $el)], [$el] being the k-th item of [m]. *)
Definition showSubMenu (fuel : nat) (d : Dom) (m : ref) (s : ref) (k : nat)
    (w : World) : option World :=
  let '(left, width, top) := itemOffset d m k in
  let x := (left + width)%Q in
  let x := if hasVerticalScrollbar d m then (x + measuredScrollbarWidth d)%Q else x in
  w1 ← show fuel d s x (top - 5)%Q (Some m) w;
  Some (update m (setSubMenu (Some s)) w1).

(** The mouseover handler of the k-th item of [m] (separators have none).
    Highlighting only moves a CSS class and is left out. *)
Definition mouseover (fuel : nat) (d : Dom) (m : ref) (k : nat) (w : World)
  : option World :=
  match menuItems (heap w m) !! k with
  | None => Some w
  | Some item =>
      if bool_decide (type item = Some separator) then Some w
      else
        match submenu item with
        | Some s =>
            w1 ← (if bool_decide (Some s = subMenu (heap w m)) then Some w
                   else hideSubMenu fuel m w);
            showSubMenu fuel d m s k w1
        | None => hideSubMenu fuel m w
        end
  end.

(** The submenus a menu can open. *)
Definition children (w : World) (m : ref) : list ref :=
  omap submenu (menuItems (heap w m)).

(** What can happen to the menus of a page. *)
Inductive Event : Type :=
  | Show (m : ref) (x y : Q)      (** [m.show(x, y)] on a menu that is no submenu *)
  | Hover (m : ref) (k : nat)     (** mouseover on the k-th item of [m] *)
  | Hide (m : ref)                (** [m.hide()] *)
  | HideAll.                      (** click on the glass pane or on an item *)

Definition step (fuel : nat) (d : Dom) (ev : Event) (w : World) : option World :=
  match ev with
  | Show m x y => show fuel d m x y None w
  | Hover m k => mouseover fuel d m k w
  | Hide m => hide fuel m w
  | HideAll => Some (hideAll w)
  end.

(** A sequence of events. *)
Fixpoint run (fuel : nat) (d : Dom) (evs : list Event) (w : World) : option World :=
  match evs with
  | [] => Some w
  | ev :: evs' => step fuel d ev w ≫= run fuel d evs'
  end.

(** [Show] stands for a call on a top-level menu: one that no item has as
    its submenu. *)
Definition allowed (ev : Event) (w : World) : Prop :=
  match ev with
  | Show m _ _ => ∀ p, m ∉ children w p
  | _ => True
  end.

(** The states a page can be in: from [w0], any number of events. *)
Inductive reachable (fuel : nat) (d : Dom) (w0 : World) : World -> Prop :=
  | reach_init : reachable fuel d w0 w0
  | reach_step w ev w' :
      reachable fuel d w0 w -> allowed ev w -> step fuel d ev w = Some w' ->
      reachable fuel d w0 w'.

End Menu.

(** * Facts about the DataGrid *)

Module ComparatorFacts.
Import JS DataGrid.

(** [a] sorts before [b] when the comparator returns a negative number. *)
Definition sortsBefore (a b : string) : Prop :=
  ∃ v, naturalOrderComparator a b = Some (Ret v) ∧ lt0 v = true.

(** The numbers a comparison can return: an integer or an infinity. *)
Definition integerOrInfinite (v : number) : Prop :=
  isInteger v = true ∨ v = PosInf ∨ v = NegInf.

Lemma takeWhile_length p s :
  (String.length (takeWhile p s) ≤ String.length s)%nat.
Proof.
  induction s as [|c s IH]; simpl; [lia|].
  destruct (p c); simpl; lia.
Qed.

Lemma substring_length n s :
  String.length (substring n s) = (String.length s - n)%nat.
Proof.
  revert s. induction n as [|n IH]; intros [|c s]; simpl; auto with lia.
Qed.

(** The pattern matches every non-empty string, and what it matches has at
    least one character. *)
Lemma chunk_Some s :
  s ≠ EmptyString →
  ∃ c, chunk s = Some c ∧ (1 ≤ String.length c ≤ String.length s)%nat.
Proof.
  destruct s as [|x s]; [done|]. intros _. unfold chunk.
  destruct (isDigit x) eqn:Hx; eexists; (split; [reflexivity|]);
    (split; [|apply takeWhile_length]); simpl; rewrite Hx; simpl; lia.
Qed.

(** A chunk is a run of digits or has no digit at all. *)
Lemma chunk_shape s c :
  chunk s = Some c →
  forallb isDigit c = true ∨ forallb (λ x, negb (isDigit x)) c = true.
Proof.
  assert (∀ p t, forallb p (takeWhile p t) = true) as Htake.
  { intros p t. induction t as [|x t IH]; simpl; [done|].
    destruct (p x) eqn:Hx; simpl; [by rewrite Hx|done]. }
  destruct s as [|x s]; [done|]. unfold chunk.
  destruct (isDigit x); intros [= <-]; [left|right];
    exact (Htake _ (String x s)).
Qed.

Lemma chunk_length s c :
  chunk s = Some c → (1 ≤ String.length c ≤ String.length s)%nat.
Proof.
  intros Hc. destruct s as [|x s]; [done|].
  destruct (chunk_Some (String x s)) as (c' & Hc' & Hlen); [done|].
  congruence.
Qed.

Lemma body_cons x a y b :
  body (String x a) (String y b) =
  match chunk (String x a), chunk (String y b) with
  | Some chunka, Some chunkb =>
      let anum := negb (isNaN (toNumber chunka)) in
      let bnum := negb (isNaN (toNumber chunkb)) in
      if anum && negb bnum then inl (Ret (Fin (-1)))
      else if bnum && negb anum then inl (Ret (Fin 1))
      else
        let next :=
          inr (substring (String.length chunka) (String x a),
               substring (String.length chunkb) (String y b)) in
        if anum && bnum then
          let diff := sub (toNumber chunka) (toNumber chunkb) in
          if truthy diff then inl (Ret diff)
          else if negb (len chunka =? len chunkb) then
            if negb (truthy (toNumber chunka)) && negb (truthy (toNumber chunkb))
            then inl (Ret (Fin (len chunka - len chunkb)))
            else inl (Ret (Fin (len chunkb - len chunka)))
          else next
        else if negb (String.eqb chunka chunkb) then
          inl (Ret (Fin (if String.ltb chunka chunkb then -1 else 1)))
        else next
  | _, _ => inl TypeError
  end.
Proof. reflexivity. Qed.

(** The loop exits at once when either string is empty. *)
Lemma body_empty a b :
  a = EmptyString ∨ b = EmptyString → ∃ v, body a b = inl (Ret (Fin v)).
Proof. intros [-> | ->]; [destruct b | destruct a]; simpl; eauto. Qed.

(** A pass that goes round again has consumed a chunk of each string. *)
Lemma body_continue a b a' b' :
  body a b = inr (a', b') →
  ∃ chunka chunkb,
    chunk a = Some chunka ∧ chunk b = Some chunkb ∧
    a' = substring (String.length chunka) a ∧
    b' = substring (String.length chunkb) b.
Proof.
  destruct a as [|x a], b as [|y b]; try discriminate.
  rewrite body_cons.
  destruct (chunk (String x a)) as [ca|], (chunk (String y b)) as [cb|];
    try discriminate.
  intros H. exists ca, cb. cbv zeta in H.
  repeat case_match; simplify_eq; done.
Qed.

Lemma body_decreases a b a' b' :
  body a b = inr (a', b') →
  (String.length a' < String.length a)%nat ∧
  (String.length b' < String.length b)%nat.
Proof.
  intros (ca & cb & Ha & Hb & -> & ->)%body_continue.
  apply chunk_length in Ha, Hb. rewrite !substring_length. lia.
Qed.

Lemma truthy_not_NaN v : truthy v = true → integerOrInfinite v.
Proof. destruct v; unfold integerOrInfinite; simpl; intros; auto; done. Qed.

(** A pass that returns, returns an integer or an infinity. *)
Lemma body_return a b r :
  body a b = inl r → ∃ v, r = Ret v ∧ integerOrInfinite v.
Proof.
  destruct a as [|x a], b as [|y b].
  1-3: simpl; intros [= <-]; eexists; split; [reflexivity|left; reflexivity].
  rewrite body_cons.
  destruct (chunk_Some (String x a)) as (ca & -> & _); [done|].
  destruct (chunk_Some (String y b)) as (cb & -> & _); [done|].
  cbv zeta. intros H.
  repeat case_match; simplify_eq;
    (eexists; split; [reflexivity|]);
    first [ by left | by apply truthy_not_NaN ].
Qed.

(** More passes than the two strings have characters always suffice. *)
Lemma loop_fuel fuel a b :
  (String.length a + String.length b < fuel)%nat →
  ∃ v, loop fuel a b = Some (Ret v) ∧ integerOrInfinite v.
Proof.
  revert a b. induction fuel as [|fuel IH]; intros a b Hlt; [lia|].
  simpl. destruct (body a b) as [r|[a' b']] eqn:Hbody.
  - apply body_return in Hbody as (v & -> & Hv). eauto.
  - apply body_decreases in Hbody. apply IH. lia.
Qed.

(** The result does not depend on the bound once it is large enough. *)
Lemma loop_fuel_irrelevant fuel fuel' a b r :
  loop fuel a b = Some r → (fuel ≤ fuel')%nat → loop fuel' a b = Some r.
Proof.
  revert fuel' a b. induction fuel as [|fuel IH]; intros fuel' a b; [done|].
  intros H Hle. destruct fuel' as [|fuel']; [lia|]. simpl in *.
  destruct (body a b) as [?|[a' b']]; [done|]. apply IH; [done|lia].
Qed.

Lemma naturalOrderComparator_returns a b :
  ∃ v, naturalOrderComparator a b = Some (Ret v) ∧ integerOrInfinite v.
Proof.
  unfold naturalOrderComparator.
  repeat case_match; try (eexists; split; [reflexivity|by left]).
  apply loop_fuel. lia.
Qed.

(** A tie between two numeric chunks of different lengths. *)
Lemma body_numeric_tie a b chunka chunkb :
  chunk a = Some chunka → chunk b = Some chunkb →
  isNaN (toNumber chunka) = false → isNaN (toNumber chunkb) = false →
  truthy (sub (toNumber chunka) (toNumber chunkb)) = false →
  String.length chunka ≠ String.length chunkb →
  body a b =
    inl (Ret (Fin (if negb (truthy (toNumber chunka)) && negb (truthy (toNumber chunkb))
                   then len chunka - len chunkb
                   else len chunkb - len chunka))).
Proof.
  intros Ha Hb Hna Hnb Hdiff Hlen.
  destruct a as [|x a], b as [|y b]; try discriminate.
  rewrite body_cons, Ha, Hb. cbv zeta. rewrite Hna, Hnb, Hdiff. simpl.
  assert ((len chunka =? len chunkb) = false) as ->.
  { apply Z.eqb_neq. unfold len. lia. }
  simpl. by case_match.
Qed.


Lemma round53_pos n : 0 < n → 0 < round53 n.
Proof.
  intros Hn. unfold round53. destruct (Z.ltb_spec n (2 ^ 53)) as [|Hge]; [done|].
  assert (0 < Z.log2 n - 52) as He.
  { assert (53 ≤ Z.log2 n); [|lia]. by apply Z.log2_le_pow2. }
  set (e := Z.log2 n - 52) in *. cbv zeta.
  assert (1 ≤ Z.shiftr n e) as Hq.
  { rewrite Z.shiftr_div_pow2 by lia.
    apply Z.div_le_lower_bound; [apply Z.pow_pos_nonneg; lia|].
    rewrite Z.mul_1_r. etrans; [|apply Z.log2_spec; lia].
    apply Z.pow_le_mono_r; lia. }
  rewrite Z.shiftl_mul_pow2 by lia.
  apply Z.mul_pos_pos; [case_match; lia|apply Z.pow_pos_nonneg; lia].
Qed.

Lemma toDouble_zero z : truthy (toDouble z) = false → z = 0.
Proof.
  unfold toDouble. destruct (Z.eq_dec z 0) as [|Hz]; [done|].
  pose proof (round53_pos (Z.abs z)) as Hpos.
  repeat case_match; simpl; try done.
  intros Hm%negb_false_iff%Z.eqb_eq. lia.
Qed.

(** Two numeric values whose difference is falsy are both zero or both
    non-zero. *)
Lemma tie_same_truthy x y :
  isNaN x = false → isNaN y = false → truthy (sub x y) = false →
  truthy x = truthy y.
Proof.
  destruct x as [a| | |], y as [b| | |]; simpl; try done.
  intros _ _ Hz%toDouble_zero. by replace a with b by lia.
Qed.



(** C1 (as the code has it): when the current chunks are numeric, equal
    in value and differ in length, both values are zero or both are
    non-zero; if both are zero the comparator returns the length of the
    first chunk minus that of the second (the shorter chunk sorts first),
    otherwise the length of the second minus that of the first (the longer
    chunk sorts first).  So comparator("a1","a01") is 1 and
    comparator("a0","a00") is -1. *)
Theorem numeric_tie_rule :
  naturalOrderComparator "a1" "a01" = Some (Ret (Fin 1)) ∧
  naturalOrderComparator "a0" "a00" = Some (Ret (Fin (-1))) ∧
  ∀ fuel a b chunka chunkb,
    chunk a = Some chunka → chunk b = Some chunkb →
    isNaN (toNumber chunka) = false → isNaN (toNumber chunkb) = false →
    truthy (sub (toNumber chunka) (toNumber chunkb)) = false →
    String.length chunka ≠ String.length chunkb →
    truthy (toNumber chunka) = truthy (toNumber chunkb) ∧
    loop (S fuel) a b =
      Some (Ret (Fin (if truthy (toNumber chunka)
                      then len chunkb - len chunka
                      else len chunka - len chunkb))).
Proof.
  split; [reflexivity|]. split; [reflexivity|].
  intros fuel a b ca cb Ha Hb Hna Hnb Hdiff Hlen.
  pose proof (tie_same_truthy _ _ Hna Hnb Hdiff) as Hsame.
  split; [done|]. simpl loop.
  rewrite (body_numeric_tie a b ca cb) by done. rewrite <- Hsame.
  by destruct (truthy (toNumber ca)).
Qed.

Lemma numeric_tie_rule_witness :
  truthy (toNumber "0") = truthy (toNumber "00") ∧
  loop 1 "0" "00" =
    Some (Ret (Fin (if truthy (toNumber "0")
                    then len "00" - len "0" else len "0" - len "00"))).
Proof.
  apply (proj2 (proj2 numeric_tie_rule) 0%nat "0" "00" "0" "00");
    first [reflexivity | simpl; lia].
Defined.

(** C1 fails as stated: the chunks "1" and "01" are numeric, equal and
    non-zero, "1" has fewer characters, and yet comparator("a1","a01") is
    positive, so "a01" sorts first. *)
Lemma fewer_characters_first_fails :
  chunk "1" = Some "1" ∧ chunk "01" = Some "01" ∧
  truthy (sub (toNumber "1") (toNumber "01")) = false ∧
  truthy (toNumber "1") = true ∧ truthy (toNumber "01") = true ∧
  (String.length "1" < String.length "01")%nat ∧
  ∃ v, naturalOrderComparator "a1" "a01" = Some (Ret v) ∧ gt0 v = true.
Proof. repeat split; [simpl; lia|]. by exists (Fin 1). Qed.

(** C10 (as the code has it): the pattern matches at least one character
    of every non-empty string; a pass of the loop that does not return
    leaves two strings of smaller combined length; a pass with an empty
    string returns; hence
    the comparator returns for every pair of strings, after at most one
    pass more than they have characters, and what it returns is an integer
    or an infinity, never NaN. *)
Theorem naturalOrderComparator_terminates (a b : string) :
  (a ≠ EmptyString →
     ∃ c, chunk a = Some c ∧ (1 ≤ String.length c ≤ String.length a)%nat) ∧
  (∀ a' b', body a b = inr (a', b') →
     a ≠ EmptyString ∧ b ≠ EmptyString ∧
     (String.length a' + String.length b' < String.length a + String.length b)%nat) ∧
  (a = EmptyString ∨ b = EmptyString → ∃ v, body a b = inl (Ret (Fin v))) ∧
  (∃ v, naturalOrderComparator a b = Some (Ret v) ∧ integerOrInfinite v) ∧
  (∀ fuel, (String.length a + String.length b < fuel)%nat →
     loop fuel a b = loop (S (String.length a + String.length b)) a b).
Proof.
  split; [apply chunk_Some|]. split.
  { intros a' b' Hbody. pose proof (body_decreases _ _ _ _ Hbody).
    destruct a, b; try discriminate. repeat split; [done|done|lia]. }
  split; [apply body_empty|]. split; [apply naturalOrderComparator_returns|].
  intros fuel Hfuel.
  destruct (loop_fuel (S (String.length a + String.length b)) a b) as (v & Hv & _);
    [lia|].
  rewrite Hv. eapply loop_fuel_irrelevant; [done|lia].
Qed.

(** C10 fails as stated: "Infinity" is a chunk that converts to a number,
    and the comparator returns the difference Infinity - 1, which is not
    an integer. *)
Lemma returns_non_integer :
  naturalOrderComparator "Infinity" "1" = Some (Ret PosInf) ∧
  isInteger PosInf = false.
Proof. split; reflexivity. Qed.

(** A run of digits too long for a double does the same. *)
Fixpoint zeros (n : nat) : string :=
  match n with
  | O => EmptyString
  | S n' => String "0" (zeros n')
  end.

Example overflowing_digits :
  naturalOrderComparator (String "1" (zeros 309)) "1" = Some (Ret PosInf) ∧
  naturalOrderComparator (String "1" (zeros 308)) "1" =
    Some (Ret (toDouble (10 ^ 308 - 1))).
Proof. split; vm_compute; reflexivity. Qed.

End ComparatorFacts.

Module LayoutFacts.
Import JS DataGrid.

(** *** The layout as the specification words it *)

Definition weights (cols : list IColumn) : list Q :=
  map (λ c, default 0%Q (weight c)) cols.

(** The sum of the weights of the first [k] columns, added up from [s]. *)
Definition prefixFrom (s : Q) (k : nat) (cols : list IColumn) : Q :=
  fold_left Qplus (take k (weights cols)) s.

Definition prefixWeightSum (k : nat) (cols : list IColumn) : Q :=
  prefixFrom 0%Q k cols.

Definition totalWeight (cols : list IColumn) : Q :=
  prefixWeightSum (length cols) cols.

(** [floor(prefixWeightSum_k * containerWidth / totalWeight)] *)
Definition targetOffset (tableWidth : Z) (cols : list IColumn) (k : nat) : Z :=
  Qfloor (prefixWeightSum k cols * inject_Z tableWidth / totalWeight cols).

(** The width of column [i] (counted from 0). *)
Definition specWidth (tableWidth : Z) (cols : list IColumn) (i : nat) : Z :=
  Z.max (targetOffset tableWidth cols (S i) - targetOffset tableWidth cols i) 14.

Definition nonNegativeWeights (cols : list IColumn) : Prop :=
  Forall (λ c, ∃ q, weight c = Some q ∧ (0 <= q)%Q) cols.

Definition positiveWeights (cols : list IColumn) : Prop :=
  Forall (λ c, ∃ q, weight c = Some q ∧ (0 < q)%Q) cols.

Definition sumZ (l : list Z) : Z := fold_right Z.add 0 l.

(** *** Arithmetic of one offset *)

Lemma toInt32_small z : -2 ^ 31 ≤ z < 2 ^ 31 → toInt32 z = z.
Proof. intros Hz. unfold toInt32. rewrite Z.mod_small; lia. Qed.

Lemma truncate_nonneg q : (0 <= q)%Q → truncate q = Qfloor q.
Proof.
  destruct q as [n d]. unfold Qle, truncate, Qfloor. simpl. intros Hn.
  apply Z.quot_div_nonneg; lia.
Qed.

Lemma scaled_le s t W :
  (0 <= s)%Q → (s <= t)%Q → (0 < t)%Q → 0 ≤ W →
  (0 <= s * inject_Z W / t)%Q ∧ (s * inject_Z W / t <= inject_Z W)%Q.
Proof.
  intros Hs Hst Ht HW.
  assert (0 <= inject_Z W)%Q as HW' by (unfold Qle; simpl; lia).
  split.
  - apply Qle_shift_div_l; [done|]. rewrite Qmult_0_l.
    by apply Qmult_le_0_compat.
  - apply Qle_shift_div_r; [done|]. rewrite (Qmult_comm (inject_Z W) t).
    by apply Qmult_le_compat_r.
Qed.

Lemma scaled_mono s s' t W :
  (s <= s')%Q → (0 < t)%Q → 0 ≤ W →
  (s * inject_Z W / t <= s' * inject_Z W / t)%Q.
Proof.
  intros Hs Ht HW.
  assert (0 <= inject_Z W)%Q as HW' by (unfold Qle; simpl; lia).
  unfold Qdiv. apply Qmult_le_compat_r.
  - by apply Qmult_le_compat_r.
  - apply Qlt_le_weak, Qinv_lt_0_compat. done.
Qed.

(** Within the range of [offsetWidth] the offset is the floor. *)
Lemma offsetOf_floor s t W :
  (0 <= s)%Q → (s <= t)%Q → (0 < t)%Q → 0 ≤ W < 2 ^ 31 →
  offsetOf (Some s) (Some t) W = Qfloor (s * inject_Z W / t) ∧
  0 ≤ Qfloor (s * inject_Z W / t) ≤ W.
Proof.
  intros Hs Hst Ht HW.
  destruct (scaled_le s t W) as [H0 H1]; [done..|lia|].
  assert (0 ≤ Qfloor (s * inject_Z W / t) ≤ W) as Hb.
  { split.
    - change 0 with (Qfloor 0). by apply Qfloor_resp_le.
    - rewrite <- (Qfloor_Z W) at 2. by apply Qfloor_resp_le. }
  split; [|done]. unfold offsetOf.
  destruct (Qeq_bool t 0) eqn:Heq.
  { apply Qeq_bool_iff in Heq. rewrite Heq in Ht. by apply Qlt_irrefl in Ht. }
  rewrite truncate_nonneg by done. apply toInt32_small. lia.
Qed.

Lemma fold_Qplus_ge l s :
  Forall (λ q, 0 <= q)%Q l → (s <= fold_left Qplus l s)%Q.
Proof.
  revert s. induction l as [|w l IH]; intros s Hl; simpl; [apply Qle_refl|].
  inversion_clear Hl as [|?? Hw Hl']. eapply Qle_trans; [|by apply IH].
  rewrite <- (Qplus_0_r s) at 1. by apply Qplus_le_r.
Qed.

Lemma nonNegative_weights cols :
  nonNegativeWeights cols → Forall (λ q, 0 <= q)%Q (weights cols).
Proof.
  unfold nonNegativeWeights, weights. rewrite Forall_fmap. intros H.
  eapply Forall_impl; [exact H|]. intros c (q & Hq & Hle). simpl.
  by rewrite Hq.
Qed.

Lemma positive_nonNegative cols : positiveWeights cols → nonNegativeWeights cols.
Proof.
  intros H. eapply Forall_impl; [exact H|].
  intros c (q & Hq & Hlt). eauto using Qlt_le_weak.
Qed.

Lemma sumWeights_defined cols s :
  nonNegativeWeights cols →
  sumWeights (Some s) cols = Some (fold_left Qplus (weights cols) s).
Proof.
  revert s. induction cols as [|c cols IH]; intros s Hc; [done|].
  inversion_clear Hc as [|?? (q & Hq & _) Hc']. simpl. rewrite Hq. simpl.
  by apply IH.
Qed.


(** *** The second loop *)

(** The state of the loop before a column: the running sum [s] is below
    the total [t], which is [s] plus the remaining weights, and
    [lastOffset] is the floor for [s]. *)
Record loopState (W : Z) (t s : Q) (lastOffset : Z) (cols : list IColumn) : Prop := {
  ls_weights : nonNegativeWeights cols;
  ls_sum : (0 <= s)%Q;
  ls_total : (0 < t)%Q;
  ls_rest : fold_left Qplus (weights cols) s = t;
  ls_width : 0 ≤ W < 2 ^ 31;
  ls_last : lastOffset = Qfloor (s * inject_Z W / t);
}.

(** One iteration: the offset is the floor for the new sum, and the state
    before the next column holds again. *)
Lemma loopState_step W t s last c cols :
  loopState W t s last (c :: cols) →
  ∃ w, weight c = Some w ∧ (0 <= w)%Q ∧
       offsetOf (Some (s + w)%Q) (Some t) W = Qfloor ((s + w) * inject_Z W / t) ∧
       last ≤ Qfloor ((s + w) * inject_Z W / t) ∧
       loopState W t (s + w) (Qfloor ((s + w) * inject_Z W / t)) cols.
Proof.
  intros [Hw Hs Ht Hrest HW ->].
  inversion_clear Hw as [|?? (w & Hc & Hle) Hw'].
  exists w. split; [done|]. split; [done|].
  unfold weights in Hrest. simpl in Hrest. rewrite Hc in Hrest. simpl in Hrest.
  assert (0 <= s + w)%Q as Hs'.
  { rewrite <- (Qplus_0_r 0). by apply Qplus_le_compat. }
  assert (s + w <= t)%Q as Hst.
  { rewrite <- Hrest. by apply fold_Qplus_ge, nonNegative_weights. }
  destruct (offsetOf_floor (s + w) t W) as [Hoff _]; [done..|].
  split; [done|]. split; [|by constructor].
  apply Qfloor_resp_le, scaled_mono; [|done|lia].
  rewrite <- (Qplus_0_r s) at 1. by apply Qplus_le_r.
Qed.

Lemma layout_length W T s last cols :
  length (layout W T s last cols) = length cols.
Proof. revert s last. induction cols; intros; simpl; auto. Qed.

Lemma layout_min_width W T s last cols :
  Forall (λ w, minColumnWidth ≤ w) (map snd (layout W T s last cols)).
Proof.
  revert s last. induction cols; intros; simpl; constructor; [lia|auto].
Qed.

Lemma prefixFrom_cons s i c cols w :
  weight c = Some w → prefixFrom s (S i) (c :: cols) = prefixFrom (s + w) i cols.
Proof. intros Hc. unfold prefixFrom, weights. simpl. by rewrite Hc. Qed.

Lemma layout_cons W t s last c cols w :
  weight c = Some w →
  layout W (Some t) (Some s) last (c :: cols) =
    (offsetOf (Some (s + w)%Q) (Some t) W,
     Z.max (offsetOf (Some (s + w)%Q) (Some t) W - last) minColumnWidth)
    :: layout W (Some t) (Some (s + w)%Q) (offsetOf (Some (s + w)%Q) (Some t) W) cols.
Proof. intros Hc. simpl. by rewrite Hc. Qed.

Lemma layout_lookup W t cols : ∀ s last i,
  loopState W t s last cols → (i < length cols)%nat →
  layout W (Some t) (Some s) last cols !! i =
    Some (Qfloor (prefixFrom s (S i) cols * inject_Z W / t),
          Z.max (Qfloor (prefixFrom s (S i) cols * inject_Z W / t)
                 - Qfloor (prefixFrom s i cols * inject_Z W / t)) 14).
Proof.
  induction cols as [|c cols IH]; intros s last i Hst Hi; simpl in Hi; [lia|].
  destruct (loopState_step _ _ _ _ _ _ Hst) as (w & Hc & Hw & Hoff & Hle & Hst').
  rewrite (layout_cons _ _ _ _ _ _ _ Hc), Hoff, !(prefixFrom_cons _ _ _ _ _ Hc).
  destruct i as [|i].
  - by rewrite (ls_last _ _ _ _ _ Hst).
  - change (layout W (Some t) (Some (s + w)%Q)
              (Qfloor ((s + w) * inject_Z W / t)) cols !! i = 
            Some (Qfloor (prefixFrom (s + w) (S i) cols * inject_Z W / t),
                  Z.max (Qfloor (prefixFrom (s + w) (S i) cols * inject_Z W / t)
                         - Qfloor (prefixFrom s (S i) (c :: cols) * inject_Z W / t)) 14)).
    rewrite (prefixFrom_cons _ _ _ _ _ Hc). apply (IH _ _ i Hst'). lia.
Qed.

(** After [i] columns the loop goes on from the sum of their weights and
    from the floor for that sum. *)
Lemma layout_drop W t cols : ∀ s last i,
  loopState W t s last cols → (i ≤ length cols)%nat →
  drop i (layout W (Some t) (Some s) last cols) =
    layout W (Some t) (Some (prefixFrom s i cols))
      (Qfloor (prefixFrom s i cols * inject_Z W / t)) (drop i cols).
Proof.
  induction cols as [|c cols IH]; intros s last i Hst Hi; simpl in Hi.
  { by replace i with 0%nat by lia. }
  destruct i as [|i].
  { change (prefixFrom s 0 (c :: cols)) with s.
    by rewrite <- (ls_last _ _ _ _ _ Hst). }
  destruct (loopState_step _ _ _ _ _ _ Hst) as (w & Hc & Hw & Hoff & Hle & Hst').
  rewrite (layout_cons _ _ _ _ _ _ _ Hc), Hoff, (prefixFrom_cons _ _ _ _ _ Hc).
  simpl drop. apply (IH _ _ i Hst'). lia.
Qed.

Lemma layout_sorted W t cols : ∀ s last,
  loopState W t s last cols →
  Sorted Z.le (last :: map fst (layout W (Some t) (Some s) last cols)).
Proof.
  induction cols as [|c cols IH]; intros s last Hst.
  { repeat constructor. }
  destruct (loopState_step _ _ _ _ _ _ Hst) as (w & Hc & Hw & Hoff & Hle & Hst').
  rewrite (layout_cons _ _ _ _ _ _ _ Hc), Hoff. simpl.
  constructor; [by apply IH|by constructor].
Qed.

(** The widths add up to at least the distance from [lastOffset] to the
    floor for the total. *)
Lemma layout_sum W t cols : ∀ s last,
  loopState W t s last cols →
  Qfloor (t * inject_Z W / t) - last ≤
    sumZ (map snd (layout W (Some t) (Some s) last cols)).
Proof.
  induction cols as [|c cols IH]; intros s last Hst.
  { destruct Hst as [_ _ _ Hrest _ ->]. change (s = t) in Hrest. subst t.
    change (sumZ (map snd (layout W (Some s) (Some s)
                             (Qfloor (s * inject_Z W / s)) []))) with 0.
    lia. }
  destruct (loopState_step _ _ _ _ _ _ Hst) as (w & Hc & Hw & Hoff & Hle & Hst').
  rewrite (layout_cons _ _ _ _ _ _ _ Hc), Hoff.
  specialize (IH _ _ Hst'). unfold sumZ in *. cbn [map fold_right snd].
  unfold minColumnWidth. lia.
Qed.

Lemma totalWeight_fold cols :
  totalWeight cols = fold_left Qplus (weights cols) 0%Q.
Proof.
  unfold totalWeight, prefixWeightSum, prefixFrom.
  rewrite take_ge; [done|]. unfold weights. by rewrite length_map.
Qed.

Lemma loopState_init W cols :
  nonNegativeWeights cols → (0 < totalWeight cols)%Q → 0 ≤ W < 2 ^ 31 →
  loopState W (totalWeight cols) 0 0 cols.
Proof.
  intros Hw Ht HW. constructor; try done. by rewrite totalWeight_fold.
Qed.

Lemma columnLayout_eq W cols :
  nonNegativeWeights cols →
  columnLayout W cols = layout W (Some (totalWeight cols)) (Some 0%Q) 0 cols.
Proof.
  intros Hw. unfold columnLayout.
  by rewrite sumWeights_defined, totalWeight_fold.
Qed.

Lemma floor_total t W : (0 < t)%Q → Qfloor (t * inject_Z W / t) = W.
Proof.
  intros Ht. rewrite <- (Qfloor_Z W) at 2. apply Qfloor_comp.
  rewrite Qmult_comm. apply Qdiv_mult_l. intros Heq. rewrite Heq in Ht.
  by apply Qlt_irrefl in Ht.
Qed.

Lemma positive_total cols :
  positiveWeights cols → cols ≠ [] → (0 < totalWeight cols)%Q.
Proof.
  intros Hp Hne. rewrite totalWeight_fold.
  destruct cols as [|c cols]; [done|].
  inversion_clear Hp as [|?? (q & Hq & Hlt) Hp'].
  unfold weights. simpl. rewrite Hq. simpl.
  eapply Qlt_le_trans; [|apply fold_Qplus_ge, nonNegative_weights,
                          positive_nonNegative, Hp'].
  by rewrite Qplus_0_l.
Qed.








(** The 14px floor at work: the first column is raised from 6 to 14, and
    the second still ends at the target offset 193. *)
Example squeezed_column :
  columnLayout 200
    [ {| id := "a"; title := "A"; weight := Some 1%Q;
         sortable := false; comparator := None |};
      {| id := "b"; title := "B"; weight := Some 30%Q;
         sortable := false; comparator := None |};
      {| id := "c"; title := "C"; weight := Some 1%Q;
         sortable := false; comparator := None |} ]
  = [(6, 14); (193, 187); (200, 14)].
Proof. reflexivity. Qed.

End LayoutFacts.

Module GridFacts.
Import JS DataGrid.

(** *** updateWeights *)

Lemma initialized_stays g m :
  columnWidthsInitialized g = true →
  infers g m = false ∧
  columns (updateWeights g m) = columns g ∧
  columnWidthsInitialized (updateWeights g m) = true.
Proof.
  intros Hinit. unfold updateWeights, infers. rewrite Hinit. simpl. done.
Qed.

Lemma measured_initializes g m :
  offsetWidth m ≠ 0 → columnWidthsInitialized (updateWeights g m) = true.
Proof.
  intros Hw. unfold updateWeights, infers. simpl.
  destruct (columnWidthsInitialized g); [done|]. simpl.
  apply negb_true_iff, Z.eqb_neq. done.
Qed.

Lemma initialized_resizes ms : ∀ g,
  columnWidthsInitialized g = true →
  columns (resizes g ms) = columns g ∧ inferenceRuns g ms = 0%nat.
Proof.
  induction ms as [|m ms IH]; intros g Hinit; [done|].
  destruct (initialized_stays g m Hinit) as (Hno & Hcols & Hinit').
  simpl. rewrite Hno. destruct (IH _ Hinit') as [-> ->]. done.
Qed.

Lemma inferenceRuns_le ms : ∀ g, (inferenceRuns g ms ≤ 1)%nat.
Proof.
  induction ms as [|m ms IH]; intros g; simpl; [lia|].
  destruct (infers g m) eqn:Hinf; [|apply IH].
  assert (columnWidthsInitialized (updateWeights g m) = true) as Hinit.
  { unfold updateWeights. simpl. rewrite Hinf. apply orb_true_r. }
  destruct (initialized_resizes ms _ Hinit) as [_ ->]. lia.
Qed.

Lemma inferWeights_lookup m cols : ∀ k i column,
  cols !! i = Some column →
  inferWeights m k cols !! i =
    Some (if noWeight (weight column)
          then setWeight (Some (inject_Z 100 * inject_Z (thOffsetWidth m (k + i))
                                / inject_Z (offsetWidth m))%Q) column
          else column).
Proof.
  induction cols as [|c cols IH]; intros k i column Hi; [done|].
  destruct i as [|i]; simpl in *.
  - injection Hi as ->. by rewrite Nat.add_0_r.
  - rewrite (IH (S k) i column Hi). by rewrite Nat.add_succ_r.
Qed.

(** C4: in every run of resize events the inference block executes at
    most once.  When it executes, each column without a weight gets 100
    times the width of its header cell divided by the container width
    and the other columns keep theirs.  After any call that measures a
    non-zero container width, no later call executes the block or changes
    a column. *)
Theorem inference_at_most_once (g : Grid) (ms : list Measure) :
  (inferenceRuns g ms ≤ 1)%nat ∧
  (∀ m i column,
     infers g m = true → columns g !! i = Some column →
     columns (updateWeights g m) !! i =
       Some (if noWeight (weight column)
             then setWeight (Some (inject_Z 100 * inject_Z (thOffsetWidth m i)
                                   / inject_Z (offsetWidth m))%Q) column
             else column)) ∧
  (∀ m, offsetWidth m ≠ 0 →
     columns (resizes (updateWeights g m) ms) = columns (updateWeights g m) ∧
     inferenceRuns (updateWeights g m) ms = 0%nat).
Proof.
  split; [apply inferenceRuns_le|]. split.
  - intros m i column Hinf Hi. unfold updateWeights. simpl. rewrite Hinf.
    by rewrite (inferWeights_lookup m _ 0 i column Hi).
  - intros m Hm. by apply initialized_resizes, measured_initializes.
Qed.

(** *** Array.prototype.sort *)

Section SortFacts.
Context {A : Type} (comparefn : A → A → number).

(** [a] may stay in front of [b]. *)
Definition notAfter (a b : A) : Prop := gt0 (comparefn a b) = false.

Hypothesis total : ∀ a b, gt0 (comparefn a b) = true → notAfter b a.
Hypothesis trans : ∀ a b c, notAfter a b → notAfter b c → notAfter a c.

Lemma insert_Permutation x l : insert comparefn x l ≡ₚ x :: l.
Proof.
  induction l as [|y l IH]; simpl; [done|].
  destruct (gt0 (comparefn x y)); [|done].
  rewrite IH. apply Permutation_swap.
Qed.

Lemma sort_Permutation l : sort comparefn l ≡ₚ l.
Proof.
  induction l as [|x l IH]; simpl; [done|].
  by rewrite insert_Permutation, IH.
Qed.

Lemma insert_StronglySorted x l :
  StronglySorted notAfter l → StronglySorted notAfter (insert comparefn x l).
Proof using total trans.
  induction 1 as [|y l Hl IH Hy]; simpl; [repeat constructor|].
  destruct (gt0 (comparefn x y)) eqn:Hxy.
  - constructor; [done|]. rewrite insert_Permutation.
    constructor; [by apply total|done].
  - constructor; [by constructor|]. constructor; [done|].
    eapply Forall_impl; [exact Hy|]. intros z Hz. by eapply trans.
Qed.

Lemma sort_StronglySorted l : StronglySorted notAfter (sort comparefn l).
Proof using total trans.
  induction l; simpl; [constructor|by apply insert_StronglySorted].
Qed.

(** Sorting a sorted array changes nothing. *)
Lemma sort_sorted l : StronglySorted notAfter l → sort comparefn l = l.
Proof.
  induction 1 as [|x l Hl IH Hx]; simpl; [done|]. rewrite IH.
  destruct Hx as [|y l' Hxy _]; simpl; [done|].
  unfold notAfter in Hxy. by rewrite Hxy.
Qed.

(** Neither of the two has to come after the other. *)
Definition tied (a b : A) : Prop := notAfter a b ∧ notAfter b a.

(** Rearrangements that never exchange two tied elements. *)
Inductive stable : list A → list A → Prop :=
  | stable_nil : stable [] []
  | stable_skip x l l' : stable l l' → stable (x :: l) (x :: l')
  | stable_swap x y l : ¬ tied x y → stable (x :: y :: l) (y :: x :: l)
  | stable_trans l1 l2 l3 : stable l1 l2 → stable l2 l3 → stable l1 l3.

Lemma stable_refl l : stable l l.
Proof. induction l; by constructor. Qed.

Lemma insert_stable x l : stable (x :: l) (insert comparefn x l).
Proof using total.
  induction l as [|y l IH]; simpl; [apply stable_refl|].
  destruct (gt0 (comparefn x y)) eqn:Hxy; [|apply stable_refl].
  eapply stable_trans; [apply stable_swap|by apply stable_skip].
  intros [Hna _]. unfold notAfter in Hna. congruence.
Qed.

Lemma sort_stable l : stable l (sort comparefn l).
Proof using total.
  induction l as [|x l IH]; simpl; [constructor|].
  eapply stable_trans; [by apply stable_skip|apply insert_stable].
Qed.

(** Two insertions of elements that are not tied commute. *)
Lemma insert_insert x y l :
  ¬ tied x y →
  insert comparefn x (insert comparefn y l) =
  insert comparefn y (insert comparefn x l).
Proof using total trans.
  intros Hxy.
  assert (gt0 (comparefn x y) = negb (gt0 (comparefn y x))) as Hflip.
  { destruct (gt0 (comparefn x y)) eqn:H1, (gt0 (comparefn y x)) eqn:H2; try done.
    - apply total in H1. unfold notAfter in H1. congruence.
    - by destruct Hxy. }
  induction l as [|z l IH]; simpl.
  { rewrite Hflip. by destruct (gt0 (comparefn y x)). }
  destruct (gt0 (comparefn y z)) eqn:Hyz, (gt0 (comparefn x z)) eqn:Hxz; simpl;
    rewrite ?Hyz, ?Hxz.
  - by rewrite IH.
  - destruct (gt0 (comparefn y x)) eqn:Hyx; simpl; rewrite ?Hyz; [done|].
    pose proof (trans y x z Hyx Hxz) as Hc. unfold notAfter in Hc. congruence.
  - destruct (gt0 (comparefn x y)) eqn:Hxy'; simpl; rewrite ?Hxz; [done|].
    pose proof (trans x y z Hxy' Hyz) as Hc. unfold notAfter in Hc. congruence.
  - rewrite Hflip. destruct (gt0 (comparefn y x)); simpl; by rewrite ?Hyz, ?Hxz.
Qed.

(** The sorted array depends on the input only up to such rearrangements. *)
Lemma stable_sort l l' : stable l l' → sort comparefn l = sort comparefn l'.
Proof using total trans.
  induction 1 as [|x l l' _ IH|x y l Hxy|l1 l2 l3 _ IH1 _ IH2]; simpl.
  - done.
  - by rewrite IH.
  - by apply insert_insert.
  - congruence.
Qed.
End SortFacts.


(** *** sortNodes *)

(** [-x] *)
Definition neg (v : number) : number :=
  match v with
  | Fin z => Fin (- z)
  | PosInf => NegInf
  | NegInf => PosInf
  | NaN => NaN
  end.


(** *** The click handler *)

(** The attributes a click on a cell with id [id] leaves on a cell. *)
Definition afterClick (id : string) (th : Th) : Th :=
  if bool_decide (data_id th = Some id) then th else rmOrder th.

Lemma click_sortable g i th id column :
  headerRow g !! i = Some th → data_id th = Some id →
  lookupColumn g id = Some column →
  let isAscending := isAscendingOf (data_order th) in
  ∃ g',
    click i g = Some g' ∧
    nodes g' = sort (compareNodes (comparatorOf column) id isAscending) (nodes g) ∧
    headerRow g' =
      map (afterClick id)
        (<[i := setOrder (if isAscending then "descending" else "ascending") th]>
           (headerRow g)) ∧
    columns g' = columns g ∧ columnMap g' = columnMap g.
Proof.
  intros Hth Hid Hcol asc. unfold click. rewrite Hth. simpl. rewrite Hid. simpl.
  unfold sortNodes, lookupColumn in *. simpl. rewrite Hcol.
  eexists. split; [reflexivity|]. done.
Qed.

(** The clicked cell keeps the order just written to it. *)
Lemma afterClick_clicked g i th id v :
  headerRow g !! i = Some th → data_id th = Some id →
  map (afterClick id) (<[i := setOrder v th]> (headerRow g)) !! i =
    Some (setOrder v th).
Proof.
  intros Hth Hid. rewrite list_lookup_fmap, list_lookup_insert_eq.
  - simpl. unfold afterClick. simpl. by rewrite Hid, bool_decide_eq_true_2.
  - by eapply lookup_lt_Some.
Qed.

(** A cell with another id loses its order. *)
Lemma afterClick_other g i j th th' id v :
  headerRow g !! j = Some th' → data_id th' ≠ Some id → i ≠ j →
  map (afterClick id) (<[i := setOrder v th]> (headerRow g)) !! j =
    Some (rmOrder th').
Proof.
  intros Hth' Hid Hij. rewrite list_lookup_fmap, list_lookup_insert_ne by done.
  rewrite Hth'. simpl. unfold afterClick. by rewrite bool_decide_eq_false_2.
Qed.


(** A comparator that orders the cell values: of two values one may stay
    in front of the other, and staying in front is transitive. *)
Definition totalOrder (c : value → value → number) : Prop :=
  (∀ a b, gt0 (c a b) = true → gt0 (c b a) = false) ∧
  (∀ a b d, gt0 (c a b) = false → gt0 (c b d) = false → gt0 (c a d) = false).

(** The rows are in ascending ([asc = true]) or descending order of their
    cells in column [id]: no row would have to move behind a later one. *)
Definition ordered (c : value → value → number) (id : string) (asc : bool)
    (rows : list (gmap string value)) : Prop :=
  StronglySorted (notAfter (compareNodes c id asc)) rows.

Lemma sort_ordered c id asc rows :
  totalOrder c → ordered c id asc (sort (compareNodes c id asc) rows).
Proof.
  intros [Htot Htrans]. apply sort_StronglySorted; unfold notAfter, compareNodes.
  - intros a b. destruct asc; apply Htot.
  - intros a b d. destruct asc; eauto.
Qed.

Lemma stable_tied {A} (f f' : A → A → number) l l' :
  (∀ x y, tied f' x y → tied f x y) → stable f l l' → stable f' l l'.
Proof.
  intros Hsub. induction 1; [constructor|by constructor|constructor; auto|].
  by eapply stable_trans.
Qed.

(** Sorting one way, the other way and back gives the first result. *)
Lemma sort_there_and_back c id asc rows :
  totalOrder c →
  sort (compareNodes c id asc)
    (sort (compareNodes c id (negb asc)) (sort (compareNodes c id asc) rows))
  = sort (compareNodes c id asc) rows.
Proof.
  intros [Htot Htrans].
  assert (∀ b, (∀ x y, gt0 (compareNodes c id b x y) = true →
                       notAfter (compareNodes c id b) y x) ∧
               (∀ x y z, notAfter (compareNodes c id b) x y →
                         notAfter (compareNodes c id b) y z →
                         notAfter (compareNodes c id b) x z)) as Hord.
  { intros b. unfold notAfter, compareNodes. split.
    - intros x y. destruct b; apply Htot.
    - intros x y z. destruct b; eauto. }
  set (sorted := sort (compareNodes c id asc) rows).
  rewrite <- (stable_sort (compareNodes c id asc) (proj1 (Hord asc)) (proj2 (Hord asc))
                sorted (sort (compareNodes c id (negb asc)) sorted)).
  - apply sort_sorted, sort_StronglySorted; apply Hord.
  - eapply stable_tied; [|apply sort_stable, Hord].
    unfold tied, notAfter, compareNodes. intros x y. destruct asc; simpl; tauto.
Qed.

Lemma isAscendingOf_toggle (asc : bool) :
  isAscendingOf (Some (if asc then "descending" else "ascending")) = negb asc.
Proof. by destruct asc. Qed.

Lemma lookupColumn_ext g g' id :
  columns g' = columns g → columnMap g' = columnMap g →
  lookupColumn g' id = lookupColumn g id.
Proof. unfold lookupColumn. by intros -> ->. Qed.

(** One click on a sortable header, with what the next click needs. *)
Lemma click_once g i th id column :
  headerRow g !! i = Some th → data_id th = Some id →
  lookupColumn g id = Some column →
  let asc := isAscendingOf (data_order th) in
  let th1 := setOrder (if asc then "descending" else "ascending") th in
  ∃ g1,
    click i g = Some g1 ∧
    nodes g1 = sort (compareNodes (comparatorOf column) id asc) (nodes g) ∧
    headerRow g1 !! i = Some th1 ∧
    (∀ j th', headerRow g !! j = Some th' → data_id th' ≠ Some id →
              headerRow g1 !! j = Some (rmOrder th')) ∧
    (∀ id', lookupColumn g1 id' = lookupColumn g id').
Proof.
  intros Hth Hid Hcol asc th1.
  destruct (click_sortable g i th id column Hth Hid Hcol)
    as (g1 & Hclick & Hnodes & Hhead & Hcols & Hmap).
  exists g1. split; [done|]. split; [done|]. rewrite Hhead.
  split; [by eapply afterClick_clicked|]. split.
  - intros j th' Hj Hne. eapply afterClick_other; [done..|].
    intros ->. congruence.
  - intros id'. by apply lookupColumn_ext.
Qed.



(** *** Grids made by the constructor *)

(** Every header cell that carries an id names a column of the map, so
    [sortNodes] finds its column. *)
Definition headersKnown (g : Grid) : Prop :=
  ∀ i th id, headerRow g !! i = Some th → data_id th = Some id →
             is_Some (lookupColumn g id).

Lemma buildColumnMap_lookup cols : ∀ k m id0,
  (∃ j c, buildColumnMap k cols m !! id0 = Some (k + j)%nat ∧
          cols !! j = Some c ∧ id c = id0) ∨
  (buildColumnMap k cols m !! id0 = m !! id0 ∧ ∀ c, c ∈ cols → id c ≠ id0).
Proof.
  induction cols as [|a cols IH]; intros k m id0; simpl.
  { right. split; [done|]. intros c Hc. by apply elem_of_nil in Hc. }
  destruct (IH (S k) (<[id a := k]> m) id0) as [(j & c & Hj & Hc & Hid)|[Heq Hno]].
  - left. exists (S j), c. rewrite Hj. split; [f_equal; lia|done].
  - destruct (decide (id a = id0)) as [Ha|Ha].
    + left. exists 0%nat, a. rewrite Heq, Ha, lookup_insert_eq.
      split; [f_equal; lia|]. by rewrite <- Ha.
    + right. rewrite Heq, lookup_insert_ne by done. split; [done|].
      intros c [->|Hc]%elem_of_cons; auto.
Qed.

Lemma updateWeights_lookupColumn g m id0 :
  is_Some (lookupColumn g id0) → is_Some (lookupColumn (updateWeights g m) id0).
Proof.
  unfold lookupColumn, updateWeights. simpl.
  destruct (columnMap g !! id0) as [k|]; simpl; [|done].
  destruct (infers g m); [|done]. intros [c Hc].
  rewrite (inferWeights_lookup m _ 0 k c Hc). eauto.
Qed.

Lemma new_headersKnown cols m : headersKnown (new cols m).
Proof.
  intros i th id0 Hth Hid. apply updateWeights_lookupColumn.
  unfold lookupColumn. simpl.
  change (renderHeader cols !! i = Some th) in Hth.
  unfold renderHeader in Hth. rewrite list_lookup_fmap in Hth.
  destruct (cols !! i) as [c|] eqn:Hc; [|done]. injection Hth as <-.
  simpl in Hid. destruct (sortable c); [|done]. injection Hid as <-.
  destruct (buildColumnMap_lookup cols 0 ∅ (id c)) as [(j & c' & -> & Hj & _)|[_ Hno]].
  - simpl. rewrite Hj. eauto.
  - destruct (Hno c); [by eapply list_elem_of_lookup_2|done].
Qed.

Lemma updateWeights_headersKnown g m :
  headersKnown g → headersKnown (updateWeights g m).
Proof.
  intros Hk i th id0 Hth Hid. apply updateWeights_lookupColumn. by eapply Hk.
Qed.

Lemma append_headersKnown data g : headersKnown g → headersKnown (append data g).
Proof. intros Hk i th id0 Hth Hid. by apply (Hk i th id0). Qed.

(** On such a grid a click never raises, and leaves such a grid. *)
Lemma click_headersKnown i g :
  headersKnown g → ∃ g', click i g = Some g' ∧ headersKnown g'.
Proof.
  intros Hk.
  destruct (headerRow g !! i) as [th|] eqn:Hth;
    [|exists g; unfold click; by rewrite Hth].
  destruct (data_id th) as [id0|] eqn:Hid;
    [|exists g; unfold click; rewrite Hth; simpl; by rewrite Hid].
  destruct (Hk i th id0 Hth Hid) as [column Hcol].
  destruct (click_sortable g i th id0 column Hth Hid Hcol)
    as (g' & Hclick & _ & Hhead & Hcols & Hmap).
  exists g'. split; [done|]. intros j th' id' Hj Hid'.
  rewrite (lookupColumn_ext g g') by done.
  rewrite Hhead, list_lookup_fmap in Hj.
  destruct (decide (i = j)) as [<-|Hij].
  - rewrite list_lookup_insert_eq in Hj by (by eapply lookup_lt_Some).
    injection Hj as <-. apply (Hk i th id'); [done|].
    revert Hid'. unfold afterClick. by case_bool_decide.
  - rewrite list_lookup_insert_ne in Hj by done.
    destruct (headerRow g !! j) as [th0|] eqn:Hj0; [|done]. injection Hj as <-.
    apply (Hk j th0 id'); [done|].
    revert Hid'. unfold afterClick. by case_bool_decide.
Qed.

(** *** A grid to run the handlers on *)

(** A custom comparator: shorter strings first. *)
Definition byLength (a b : value) : number :=
  Fin (len (toStr a) - len (toStr b)).

Lemma byLength_totalOrder : totalOrder byLength.
Proof.
  unfold byLength. split.
  - intros a b. simpl. rewrite Z.ltb_lt, Z.ltb_ge. lia.
  - intros a b d. simpl. rewrite !Z.ltb_ge. lia.
Defined.

Definition nameColumn : IColumn :=
  {| id := "name"; title := "Name"; weight := Some 70%Q; sortable := true;
     comparator := Some byLength |}.

Definition siteColumn : IColumn :=
  {| id := "site"; title := "Site"; weight := Some 30%Q; sortable := true;
     comparator := None |}.

(** Three rows, appended in ascending order of their names' lengths. *)
Definition exampleGrid : Grid :=
  append {[ "name" := VString "Runoob"; "site" := VString "www.runoob.com" ]}
    (append {[ "name" := VString "Licia"; "site" := VString "licia.liriliri.io" ]}
       (append {[ "name" := VString "Luna"; "site" := VString "luna.liriliri.io" ]}
          (new [nameColumn; siteColumn]
             {| offsetWidth := 200; thOffsetWidth := λ _, 100 |}))).

(** The name cells of the rows, top to bottom. *)
Definition names (g : option Grid) : option (list string) :=
  (λ g', map (λ row, toStr (cell row "name")) (nodes g')) <$> g.



Example toggle_rows :
  names (Some exampleGrid) = Some ["Luna"; "Licia"; "Runoob"] ∧
  names (click 0 exampleGrid) = Some ["Luna"; "Licia"; "Runoob"] ∧
  names (clicks [0; 0]%nat exampleGrid) = Some ["Runoob"; "Licia"; "Luna"] ∧
  names (clicks [0; 0; 0]%nat exampleGrid) = Some ["Luna"; "Licia"; "Runoob"].
Proof. repeat split; vm_compute; reflexivity. Qed.


End GridFacts.

(** * Facts about the Menu *)

Module MenuFacts.
Import Menu.

(** *** positionContent *)

Lemma Qltb_lt x y : Qltb x y = true ↔ (x < y)%Q.
Proof.
  unfold Qltb. rewrite negb_true_iff, <- not_true_iff_false, Qle_bool_iff.
  split; [apply Qnot_le_lt|apply Qlt_not_le].
Qed.


Example flips_left_near_the_edge :
  left (positionContent
          {| innerWidth := 1000; innerHeight := 800; measuredScrollbarWidth := 15;
             containerOffset := λ _, (200, 300)%Q;
             itemOffset := λ _ _, (0, 0, 0)%Q;
             hasVerticalScrollbar := λ _, false |}
          (200, 300)%Q 900 100 None)
  = (900 - Qmin 1000 (200 + 0) - 0)%Q.
Proof. reflexivity. Qed.

(** *** The submenu state machine *)

(** [s] is a submenu of an item of [m] and its container is in the
    document. *)
Definition shown (w : World) (m s : ref) : Prop :=
  s ∈ children w m ∧ attached (heap w s) = true.

(** Every submenu of [m] that is shown is the one in [m.subMenu]. *)
Definition oneShown (w : World) : Prop :=
  ∀ m s, shown w m s → subMenu (heap w m) = Some s.

(** [m.subMenu] is the submenu of one of the items of [m]. *)
Definition tracked (w : World) : Prop :=
  ∀ m s, subMenu (heap w m) = Some s → s ∈ children w m.

(** The menus form a forest: submenus nest to a finite depth, and no menu
    is the submenu of items of two menus. *)
Record forest (rank : ref → nat) (w : World) : Prop := {
  forest_rank : ∀ m s, s ∈ children w m → (rank s < rank m)%nat;
  forest_parent : ∀ m1 m2 s, s ∈ children w m1 → s ∈ children w m2 → m1 = m2;
}.

(** What all the operations leave alone: the items. *)
Definition sameItems (w w' : World) : Prop :=
  ∀ m, menuItems (heap w' m) = menuItems (heap w m).

(** What hiding does to the store: containers are only taken out of the
    document, and a [subMenu] field is only cleared, and then only once
    the menu it named is out of the document. *)
Record hidden (w w' : World) : Prop := {
  hidden_items : sameItems w w';
  hidden_attached : ∀ m, attached (heap w' m) = true → attached (heap w m) = true;
  hidden_subMenu : ∀ m,
    subMenu (heap w' m) = subMenu (heap w m) ∨
    (subMenu (heap w' m) = None ∧
     ∀ s, subMenu (heap w m) = Some s → attached (heap w' s) = false);
}.

Lemma sameItems_children w w' m : sameItems w w' → children w' m = children w m.
Proof. intros H. unfold children. by rewrite H. Qed.

Lemma forest_sameItems rank w w' : sameItems w w' → forest rank w → forest rank w'.
Proof.
  intros Hsame [Hr Hp]. split.
  - intros m s. rewrite (sameItems_children w w') by done. apply Hr.
  - intros m1 m2 s. rewrite !(sameItems_children w w') by done. apply Hp.
Qed.

Lemma hidden_oneShown w w' : hidden w w' → oneShown w → oneShown w'.
Proof.
  intros [Hi Ha Hs] Hone m s [Hin Hatt].
  rewrite (sameItems_children w w') in Hin by done.
  destruct (Hs m) as [->|[_ Hdet]].
  - apply Hone. split; [done|]. by apply Ha.
  - assert (subMenu (heap w m) = Some s) as Hsub.
    { apply Hone. split; [done|]. by apply Ha. }
    apply Hdet in Hsub. congruence.
Qed.

Lemma hidden_tracked w w' : hidden w w' → tracked w → tracked w'.
Proof.
  intros [Hi Ha Hs] Htr m s Hsub.
  rewrite (sameItems_children w w') by done.
  destruct (Hs m) as [Heq|[Hnone _]]; [|congruence].
  apply Htr. congruence.
Qed.

(** [hide] takes the menu out of the document first, and leaves it out. *)
Lemma hide_spec fuel : ∀ m w w',
  hide fuel m w = Some w' →
  hidden w w' ∧ attached (heap w' m) = false ∧
  ∃ l, log w' = log w ++ Remove m :: l.
Proof.
  induction fuel as [|fuel IH]; intros m w w' Hhide; [done|].
  simpl in Hhide. unfold hideSubMenuWith in Hhide.
  set (w0 := emit (Remove m) (update m (setAttached false) w)) in *.
  assert (∀ x, menuItems (heap w0 x) = menuItems (heap w x)) as Hi0.
  { intros x. simpl. by case_decide. }
  assert (∀ x, subMenu (heap w0 x) = subMenu (heap w x)) as Hs0.
  { intros x. simpl. by case_decide. }
  assert (∀ x, attached (heap w0 x) = true → attached (heap w x) = true) as Ha0.
  { intros x. simpl. by case_decide. }
  assert (attached (heap w0 m) = false) as Hm0.
  { simpl. by rewrite decide_True. }
  destruct (subMenu (heap w0 m)) as [s|] eqn:Hsub.
  - destruct (hide fuel s w0) as [w1|] eqn:Hrec; [|done].
    injection Hhide as <-.
    destruct (IH _ _ _ Hrec) as ([Hi1 Ha1 Hs1] & Hdet & l & Hlog).
    split; [split|split].
    + intros x. simpl. rewrite <- Hi0, <- Hi1. by case_decide.
    + intros x. simpl. intros Hx. apply Ha0, Ha1. by case_decide.
    + intros x. simpl. case_decide as Hx.
      * subst x. right. split; [done|]. intros s'. rewrite <- Hs0, Hsub.
        intros [= <-]. by case_decide.
      * rewrite <- Hs0. destruct (Hs1 x) as [?|[? Hd]]; [by left|right].
        split; [done|]. intros s' Hs'. specialize (Hd s' Hs'). by case_decide.
    + simpl. rewrite decide_True by done. simpl.
      destruct (attached (heap w1 m)) eqn:Hatt; [|done].
      apply Ha1 in Hatt. congruence.
    + exists (Remove s :: l). simpl. rewrite Hlog. simpl. by rewrite <- app_assoc.
  - injection Hhide as <-. split; [split|split]; try done.
    + intros x. by left.
    + by exists [].
Qed.


Lemma hidden_refl w : hidden w w.
Proof. split; [done|done|by left]. Qed.

Lemma hideSubMenu_spec fuel m w w' :
  hideSubMenu fuel m w = Some w' →
  hidden w w' ∧ subMenu (heap w' m) = None ∧
  (∀ t, subMenu (heap w m) = Some t →
        attached (heap w' t) = false ∧ ∃ l, log w' = log w ++ Remove t :: l) ∧
  (subMenu (heap w m) = None → log w' = log w).
Proof.
  unfold hideSubMenu, hideSubMenuWith. intros Hhide.
  destruct (subMenu (heap w m)) as [t|] eqn:Hsub.
  - destruct (hide fuel t w) as [w1|] eqn:Hrec; [|done]. injection Hhide as <-.
    destruct (hide_spec _ _ _ _ Hrec) as ([Hi Ha Hs] & Hdet & l & Hlog).
    assert (∀ x, attached (heap (update m (setSubMenu None) w1) x)
                 = attached (heap w1 x)) as Hatt.
    { intros x. simpl. by case_decide. }
    split; [split|split; [|split]].
    + intros x. simpl. rewrite <- Hi. by case_decide.
    + intros x. rewrite Hatt. apply Ha.
    + intros x. simpl. case_decide as Hx.
      * subst x. right. split; [done|]. intros s. rewrite Hsub. intros [= <-].
        by case_decide.
      * destruct (Hs x) as [?|[? Hd]]; [by left|right]. split; [done|].
        intros s Hs'. specialize (Hd s Hs'). by case_decide.
    + simpl. by rewrite decide_True.
    + intros t' [= <-]. rewrite Hatt. eauto.
    + done.
  - injection Hhide as <-. split; [apply hidden_refl|]. done.
Qed.

Lemma show_spec fuel d m x y p w w' :
  show fuel d m x y p w = Some w' →
  ∃ w1, hide fuel m w = Some w1 ∧ sameItems w1 w' ∧
        (∀ r, subMenu (heap w' r) = subMenu (heap w1 r)) ∧
        (∀ r, attached (heap w' r) =
              if decide (r = m) then true else attached (heap w1 r)) ∧
        log w' = log w1 ++ [Append m].
Proof.
  unfold show. intros Hshow.
  destruct (hide fuel m w) as [w1|]; [|done]. injection Hshow as <-.
  exists w1. split; [done|].
  split; [|split; [|split]]; [intros r; simpl; by repeat case_decide..|done].
Qed.

Lemma showSubMenu_spec fuel d m s k w w' :
  showSubMenu fuel d m s k w = Some w' →
  ∃ w1, hide fuel s w = Some w1 ∧ sameItems w1 w' ∧
        (∀ r, subMenu (heap w' r) =
              if decide (r = m) then Some s else subMenu (heap w1 r)) ∧
        (∀ r, attached (heap w' r) =
              if decide (r = s) then true else attached (heap w1 r)) ∧
        log w' = log w1 ++ [Append s].
Proof.
  unfold showSubMenu. destruct (itemOffset d m k) as [[l wd] t]. intros Hshow.
  apply bind_Some in Hshow as (w2 & Hs & [= <-]).
  destruct (show_spec _ _ _ _ _ _ _ _ Hs) as (w1 & Hhide & Hi & Hsub & Hatt & Hlog).
  exists w1. split; [done|]. split; [|split; [|split]].
  - intros r. rewrite <- Hi. simpl. by case_decide.
  - intros r. rewrite <- Hsub. simpl. by case_decide.
  - intros r. rewrite <- Hatt. simpl. by case_decide.
  - done.
Qed.

(** Showing the submenu of an item keeps the invariants when no other
    submenu of the menu is shown. *)
Lemma showSubMenu_keeps rank fuel d m s k w w' :
  forest rank w → oneShown w → tracked w →
  s ∈ children w m → (∀ c, shown w m c → c = s) →
  showSubMenu fuel d m s k w = Some w' →
  sameItems w w' ∧ oneShown w' ∧ tracked w'.
Proof.
  intros Hf Hone Htr Hs Honly Hshow.
  destruct (showSubMenu_spec _ _ _ _ _ _ _ Hshow) as (w1 & Hhide & Hi & Hsub & Hatt & _).
  destruct (hide_spec _ _ _ _ Hhide) as (Hhid & _ & _).
  pose proof (hidden_oneShown _ _ Hhid Hone) as Hone1.
  pose proof (hidden_tracked _ _ Hhid Htr) as Htr1.
  assert (sameItems w w') as Hi'.
  { intros r. rewrite Hi. apply (hidden_items _ _ Hhid). }
  split; [done|]. split.
  - intros p c [Hin Hc]. rewrite (sameItems_children w w') in Hin by done.
    rewrite Hatt in Hc. rewrite Hsub. case_decide as Hcs.
    + subst c. rewrite decide_True; [done|].
      by apply (forest_parent _ _ Hf p m s).
    + assert (shown w1 p c) as Hsh1.
      { split; [|done]. by rewrite (sameItems_children w w1 p (hidden_items _ _ Hhid)). }
      case_decide as Hp; [|by apply Hone1]. subst p. exfalso. apply Hcs, Honly.
      split; [done|]. by apply (hidden_attached _ _ Hhid).
  - intros r c. rewrite Hsub, (sameItems_children w w') by done.
    case_decide as Hr; [by intros [= <-]; subst r|].
    intros Hc. apply Htr1 in Hc.
    by rewrite (sameItems_children w w1 r (hidden_items _ _ Hhid)) in Hc.
Qed.

Lemma item_child w m k item s :
  menuItems (heap w m) !! k = Some item → submenu item = Some s →
  s ∈ children w m.
Proof.
  intros Hk Hs. unfold children. apply list_elem_of_omap.
  exists item. split; [|done]. by eapply list_elem_of_lookup_2.
Qed.

Lemma mouseover_keeps rank fuel d m k w w' :
  forest rank w → oneShown w → tracked w →
  mouseover fuel d m k w = Some w' →
  sameItems w w' ∧ oneShown w' ∧ tracked w'.
Proof.
  intros Hf Hone Htr. unfold mouseover.
  destruct (menuItems (heap w m) !! k) as [item|] eqn:Hk;
    [|by intros [= <-]].
  case_bool_decide as Hsep; [by intros [= <-]|].
  destruct (submenu item) as [s|] eqn:Hs.
  - pose proof (item_child _ _ _ _ _ Hk Hs) as Hin.
    case_bool_decide as Hcur; simpl.
    + apply (showSubMenu_keeps rank); try done.
      intros c Hc. apply Hone in Hc. congruence.
    + destruct (hideSubMenu fuel m w) as [w1|] eqn:Hh; [|done]. simpl.
      destruct (hideSubMenu_spec _ _ _ _ Hh) as (Hhid & Hnone & _).
      intros Hshow.
      destruct (showSubMenu_keeps rank fuel d m s k w1 w') as (Hi & ? & ?).
      * by eapply forest_sameItems; [apply (hidden_items _ _ Hhid)|].
      * by eapply hidden_oneShown.
      * by eapply hidden_tracked.
      * by rewrite (sameItems_children w w1 m (hidden_items _ _ Hhid)).
      * intros c Hc. apply (hidden_oneShown _ _ Hhid Hone) in Hc. congruence.
      * done.
      * split; [|done]. intros r. rewrite Hi. apply (hidden_items _ _ Hhid).
  - intros Hh. destruct (hideSubMenu_spec _ _ _ _ Hh) as (Hhid & _).
    split; [apply (hidden_items _ _ Hhid)|].
    split; [by eapply hidden_oneShown|by eapply hidden_tracked].
Qed.

Lemma step_keeps rank fuel d ev w w' :
  forest rank w → oneShown w → tracked w → allowed ev w →
  step fuel d ev w = Some w' →
  sameItems w w' ∧ oneShown w' ∧ tracked w'.
Proof.
  intros Hf Hone Htr Hal. destruct ev as [m x y|m k|m|]; simpl.
  - intros Hshow.
    destruct (show_spec _ _ _ _ _ _ _ _ Hshow) as (w1 & Hhide & Hi & Hsub & Hatt & _).
    destruct (hide_spec _ _ _ _ Hhide) as (Hhid & _ & _).
    assert (sameItems w w') as Hi'.
    { intros r. rewrite Hi. apply (hidden_items _ _ Hhid). }
    split; [done|]. split.
    + intros p c [Hin Hc]. rewrite (sameItems_children w w') in Hin by done.
      rewrite Hatt in Hc. rewrite Hsub. case_decide as Hcm.
      * subst c. by destruct (Hal p).
      * apply (hidden_oneShown _ _ Hhid Hone). split; [|done].
        by rewrite (sameItems_children w w1 p (hidden_items _ _ Hhid)).
    + intros r c. rewrite Hsub, (sameItems_children w w') by done.
      intros Hc. apply (hidden_tracked _ _ Hhid Htr) in Hc.
      by rewrite (sameItems_children w w1 r (hidden_items _ _ Hhid)) in Hc.
  - by apply (mouseover_keeps rank).
  - intros Hhide. destruct (hide_spec _ _ _ _ Hhide) as (Hhid & _ & _).
    split; [apply (hidden_items _ _ Hhid)|].
    split; [by eapply hidden_oneShown|by eapply hidden_tracked].
  - intros [= <-]. split; [done|]. split.
    + by intros p c [_ Hc].
    + done.
Qed.


(** *** Every call returns *)

Lemma hidden_detach m w :
  hidden w (emit (Remove m) (update m (setAttached false) w)).
Proof.
  split.
  - intros r. simpl. by case_decide.
  - intros r. simpl. by case_decide.
  - intros r. left. simpl. by case_decide.
Qed.

Lemma hide_total rank fuel : ∀ m w,
  forest rank w → tracked w → (rank m < fuel)%nat →
  ∃ w', hide fuel m w = Some w'.
Proof.
  induction fuel as [|fuel IH]; intros m w Hf Htr Hlt; [lia|].
  simpl. unfold hideSubMenuWith.
  set (w0 := emit (Remove m) (update m (setAttached false) w)).
  pose proof (hidden_detach m w) as Hhid. fold w0 in Hhid.
  pose proof (forest_sameItems rank _ _ (hidden_items _ _ Hhid) Hf) as Hf0.
  pose proof (hidden_tracked _ _ Hhid Htr) as Htr0.
  destruct (subMenu (heap w0 m)) as [s|] eqn:Hsub; [|eauto].
  assert (rank s < rank m)%nat by (by apply (forest_rank _ _ Hf0), Htr0).
  destruct (IH s w0) as [w1 ->]; [done|done|lia|]. simpl. eauto.
Qed.

Lemma hideSubMenu_total rank fuel m w :
  forest rank w → tracked w → (∀ r, rank r < fuel)%nat →
  ∃ w', hideSubMenu fuel m w = Some w'.
Proof.
  intros Hf Htr Hfuel. unfold hideSubMenu, hideSubMenuWith.
  destruct (subMenu (heap w m)) as [s|]; [|eauto].
  destruct (hide_total rank fuel s w) as [w1 ->]; [done..|]. simpl. eauto.
Qed.

Lemma show_total rank fuel d m x y p w :
  forest rank w → tracked w → (∀ r, rank r < fuel)%nat →
  ∃ w', show fuel d m x y p w = Some w'.
Proof.
  intros Hf Htr Hfuel. unfold show.
  destruct (hide_total rank fuel m w) as [w1 ->]; [done..|]. simpl. eauto.
Qed.

Lemma showSubMenu_total rank fuel d m s k w :
  forest rank w → tracked w → (∀ r, rank r < fuel)%nat →
  ∃ w', showSubMenu fuel d m s k w = Some w'.
Proof.
  intros Hf Htr Hfuel. unfold showSubMenu.
  destruct (itemOffset d m k) as [[l wd] t].
  edestruct (show_total rank fuel d s) as [w1 ->]; [done..|]. simpl. eauto.
Qed.

Lemma mouseover_total rank fuel d m k w :
  forest rank w → tracked w → (∀ r, rank r < fuel)%nat →
  ∃ w', mouseover fuel d m k w = Some w'.
Proof.
  intros Hf Htr Hfuel. unfold mouseover.
  destruct (menuItems (heap w m) !! k) as [item|]; [|eauto].
  case_bool_decide; [eauto|].
  destruct (submenu item) as [s|]; [|by apply (hideSubMenu_total rank)].
  case_bool_decide; simpl; [by apply (showSubMenu_total rank)|].
  destruct (hideSubMenu_total rank fuel m w) as [w1 Hh]; [done..|].
  rewrite Hh. simpl.
  destruct (hideSubMenu_spec _ _ _ _ Hh) as (Hhid & _).
  apply (showSubMenu_total rank); [|by eapply hidden_tracked|done].
  by eapply forest_sameItems; [apply (hidden_items _ _ Hhid)|].
Qed.

Lemma step_total rank fuel d ev w :
  forest rank w → tracked w → (∀ r, rank r < fuel)%nat →
  ∃ w', step fuel d ev w = Some w'.
Proof.
  intros Hf Htr Hfuel. destruct ev; simpl.
  - by apply (show_total rank).
  - by apply (mouseover_total rank).
  - by apply (hide_total rank).
  - eauto.
Qed.

Lemma reachable_keeps rank fuel d w0 w :
  forest rank w0 → oneShown w0 → tracked w0 →
  reachable fuel d w0 w → forest rank w ∧ oneShown w ∧ tracked w.
Proof.
  intros Hf Hone Htr. induction 1 as [|w ev w' _ (Hf' & Hone' & Htr') Hal Hstep];
    [done|].
  destruct (step_keeps rank _ _ _ _ _ Hf' Hone' Htr' Hal Hstep) as (Hi & ? & ?).
  split; [by eapply forest_sameItems|done].
Qed.

(** What a completed mouseover leaves in [subMenu]: the submenu of the
    hovered item, if it has one. *)
Lemma mouseover_subMenu fuel d m k item w w' :
  menuItems (heap w m) !! k = Some item → type item ≠ Some separator →
  mouseover fuel d m k w = Some w' →
  subMenu (heap w' m) = submenu item.
Proof.
  intros Hk Hsep. unfold mouseover.
  rewrite Hk, bool_decide_eq_false_2 by done.
  destruct (submenu item) as [s|].
  - intros (w1 & _ & Hshow)%bind_Some.
    destruct (showSubMenu_spec _ _ _ _ _ _ _ Hshow) as (w2 & _ & _ & Hsub & _).
    by rewrite Hsub, decide_True.
  - intros Hh. by destruct (hideSubMenu_spec _ _ _ _ Hh) as (_ & Hnone & _).
Qed.

(** Hovering an item whose submenu is not the open one. *)
Lemma mouseover_other fuel d m k item s t w w' :
  menuItems (heap w m) !! k = Some item → type item ≠ Some separator →
  submenu item = Some s → subMenu (heap w m) = Some t → t ≠ s →
  mouseover fuel d m k w = Some w' →
  ∃ l, log w' = log w ++ Remove t :: l ++ [Append s] ∧
       attached (heap w' t) = false ∧ attached (heap w' s) = true.
Proof.
  intros Hk Hsep Hs Ht Hts. unfold mouseover.
  rewrite Hk, bool_decide_eq_false_2, Hs, Ht, bool_decide_eq_false_2 by congruence.
  intros (w1 & Hh & Hshow)%bind_Some.
  destruct (hideSubMenu_spec _ _ _ _ Hh) as (Hhid & _ & Hopen & _).
  destruct (Hopen t Ht) as (Hdet & l & Hlog).
  destruct (showSubMenu_spec _ _ _ _ _ _ _ Hshow)
    as (w2 & Hhide & _ & Hsub & Hatt & Hlog').
  destruct (hide_spec _ _ _ _ Hhide) as (Hhid2 & _ & l' & Hlog2).
  exists (l ++ Remove s :: l'). split.
  { rewrite Hlog', Hlog2, Hlog. by rewrite <- !app_assoc. }
  rewrite !Hatt. rewrite (decide_False (P := t = s)) by done.
  rewrite !decide_True by done. split; [|done].
  destruct (attached (heap w2 t)) eqn:Hatt2; [|done].
  apply (hidden_attached _ _ Hhid2) in Hatt2. congruence.
Qed.

(** Hovering an item without a submenu. *)
Lemma mouseover_plain fuel d m k item t w w' :
  menuItems (heap w m) !! k = Some item → type item ≠ Some separator →
  submenu item = None → subMenu (heap w m) = Some t →
  mouseover fuel d m k w = Some w' →
  ∃ l, log w' = log w ++ Remove t :: l ∧ attached (heap w' t) = false.
Proof.
  intros Hk Hsep Hs Ht. unfold mouseover.
  rewrite Hk, bool_decide_eq_false_2, Hs by congruence.
  intros Hh. destruct (hideSubMenu_spec _ _ _ _ Hh) as (_ & _ & Hopen & _).
  destruct (Hopen t Ht) as (Hdet & l & Hlog). eauto.
Qed.


(** *** A menu with two submenus *)

Definition entry (l : string) (s : option ref) : IMenuItemOptions :=
  {| type := Some (match s with Some _ => submenu_item | None => normal end);
     label := Some l;
     submenu := s; hasClick := negb (bool_decide (is_Some s)) |}.

Definition leaf : Menu :=
  {| menuItems := [entry "Open" None];
     subMenu := None; attached := false; css := None |}.

Definition root : Menu :=
  {| menuItems := [entry "New" (Some 1%nat); entry "Recent" (Some 2%nat);
                   {| type := Some separator; label := None; submenu := None;
                      hasClick := false |};
                   entry "Quit" None];
     subMenu := None; attached := false; css := None |}.

(** Menu 0 is the top-level menu, menus 1 and 2 are its submenus. *)
Definition page : World :=
  {| heap := λ r, match r with O => root | _ => leaf end; log := [] |}.

Definition depth (r : ref) : nat := match r with O => 1 | _ => 0 end.

Definition screen : Dom :=
  {| innerWidth := 1000; innerHeight := 800; measuredScrollbarWidth := 15;
     containerOffset := λ _, (200, 300)%Q;
     itemOffset := λ _ k, (10, 200, 20 * inject_Z (Z.of_nat k))%Q;
     hasVerticalScrollbar := λ _, false |}.

Lemma page_forest : forest depth page.
Proof.
  split.
  - intros [|m] s Hs; [|by apply elem_of_nil in Hs].
    change (s ∈ [1; 2]%nat) in Hs. set_unfold. unfold depth.
    destruct Hs as [->|[->|[]]]; lia.
  - intros [|m1] [|m2] s H1 H2; try done;
      first [by apply elem_of_nil in H1 | by apply elem_of_nil in H2].
Defined.

(** The top-level menu is shown, then its first item is hovered. *)
Definition afterShow : World :=
  default page (step 2 screen (Show 0%nat 900 100) page).

Definition afterHover : World :=
  default afterShow (step 2 screen (Hover 0%nat 0%nat) afterShow).

Lemma afterHover_reachable : reachable 2 screen page afterHover.
Proof.
  apply (reach_step _ _ _ afterShow (Hover 0%nat 0%nat)); [|exact I|reflexivity].
  apply (reach_step _ _ _ page (Show 0%nat 900 100)); [apply reach_init| |reflexivity].
  intros [|p] Hp; [|by apply elem_of_nil in Hp].
  change (0%nat ∈ [1; 2]%nat) in Hp. set_unfold. lia.
Defined.


Example hover_log :
  log <$> run 2 screen
            [Show 0%nat 900 100; Hover 0%nat 0%nat; Hover 0%nat 1%nat;
             Hover 0%nat 3%nat] page
  = Some [Remove 0%nat; Append 0%nat; Remove 1%nat; Append 1%nat;
          Remove 1%nat; Remove 2%nat; Append 2%nat; Remove 2%nat].
Proof. reflexivity. Qed.

End MenuFacts.

(** * More about the natural-order comparator *)

Module ComparatorMore.
Import JS DataGrid ComparatorFacts.

(** [-x] *)
Definition negate (v : number) : number :=
  match v with
  | Fin z => Fin (- z)
  | PosInf => NegInf
  | NegInf => PosInf
  | NaN => NaN
  end.

(** What a pass gives when the two strings change places. *)
Definition mirror (r : outcome + string * string) : outcome + string * string :=
  match r with
  | inl (Ret v) => inl (Ret (negate v))
  | inl TypeError => inl TypeError
  | inr (a, b) => inr (b, a)
  end.

Lemma toDouble_opp z : toDouble (- z) = negate (toDouble z).
Proof.
  unfold toDouble. rewrite Z.abs_opp.
  destruct (Z.eq_dec z 0) as [->|Hz]; [reflexivity|].
  destruct (2 ^ 1024 <=? round53 (Z.abs z)).
  - destruct (Z.ltb_spec z 0), (Z.ltb_spec (- z) 0); simpl; try done; lia.
  - simpl. f_equal. rewrite Z.sgn_opp. lia.
Qed.

Lemma sub_swap x y : sub y x = negate (sub x y).
Proof.
  destruct x as [a| | |], y as [b| | |]; simpl; try done.
  rewrite <- toDouble_opp. f_equal. lia.
Qed.

Lemma truthy_negate v : truthy (negate v) = truthy v.
Proof.
  destruct v as [z| | |]; simpl; try done.
  destruct (Z.eqb_spec z 0), (Z.eqb_spec (- z) 0); simpl; try done; lia.
Qed.

Lemma ltb_swap s t : s ≠ t → String.ltb t s = negb (String.ltb s t).
Proof.
  intros Hne. unfold String.ltb.
  pose proof (String.compare_antisym s t) as Ha.
  destruct (String.compare s t) eqn:H1, (String.compare t s) eqn:H2;
    simpl in *; try done.
  by apply String.compare_eq_iff in H1.
Qed.

(** One pass with the strings exchanged is the mirror image. *)
Lemma body_swap a b : body b a = mirror (body a b).
Proof.
  destruct a as [|x a], b as [|y b]; try reflexivity.
  rewrite !body_cons.
  destruct (chunk (String x a)) as [ca|], (chunk (String y b)) as [cb|];
    try reflexivity.
  cbv zeta. rewrite (sub_swap (toNumber ca) (toNumber cb)), truthy_negate.
  rewrite (Z.eqb_sym (len cb) (len ca)), (String.eqb_sym cb ca).
  destruct (isNaN (toNumber ca)), (isNaN (toNumber cb)); simpl; try reflexivity.
  - destruct (String.eqb_spec ca cb) as [|Hne]; simpl; [done|].
    rewrite (ltb_swap ca cb Hne). by destruct (String.ltb ca cb).
  - destruct (truthy (sub (toNumber ca) (toNumber cb))); [done|].
    destruct (len ca =? len cb); simpl; [done|].
    rewrite (andb_comm (negb (truthy (toNumber cb)))).
    destruct (negb (truthy (toNumber ca)) && negb (truthy (toNumber cb)));
      simpl; do 2 f_equal; f_equal; lia.
Qed.

Lemma loop_swap fuel : ∀ a b v,
  loop fuel a b = Some (Ret v) → loop fuel b a = Some (Ret (negate v)).
Proof.
  induction fuel as [|fuel IH]; intros a b v; [done|]. simpl.
  rewrite (body_swap a b).
  destruct (body a b) as [[w|]|[a' b']]; simpl; try done.
  - by intros [= ->].
  - apply IH.
Qed.

(** X1: exchanging the arguments of the default comparator negates its
    result, so [a] sorts before [b] exactly when [b] sorts after [a]; for
    this comparator the descending comparison of [sortNodes] is therefore
    the negated ascending one. *)
Theorem naturalOrderComparator_swap (a b : string) :
  (∃ v, naturalOrderComparator a b = Some (Ret v) ∧
        naturalOrderComparator b a = Some (Ret (negate v))) ∧
  naturalOrder (VString b) (VString a) =
    negate (naturalOrder (VString a) (VString b)) ∧
  ∀ id x y, compareNodes naturalOrder id false x y =
            negate (compareNodes naturalOrder id true x y).
Proof.
  assert (∀ s t, ∃ v, naturalOrderComparator s t = Some (Ret v) ∧
                      naturalOrderComparator t s = Some (Ret (negate v))) as Hswap.
  { intros s t. destruct (naturalOrderComparator_returns s t) as (v & Hv & _).
    exists v. split; [done|]. revert Hv. unfold naturalOrderComparator.
    rewrite (Nat.add_comm (String.length t)).
    destruct (startWith s "_"), (startWith t "_"); cbn [andb negb];
      try (by intros [= <-]); apply loop_swap. }
  assert (∀ u w, naturalOrder w u = negate (naturalOrder u w)) as Hnat.
  { intros u w. unfold naturalOrder.
    destruct (Hswap (toStr u) (toStr w)) as (v & -> & ->). done. }
  split; [apply Hswap|]. split; [apply Hnat|].
  intros id x y. unfold compareNodes. apply Hnat.
Qed.

(** Whether a non-empty string starts with an underscore is decided by its
    first character. *)
Lemma startWith_underscore c s :
  startWith (String c s) "_" = Ascii.eqb c "_".
Proof.
  unfold startWith.
  change (String.prefix "_" (String c s))
    with (if ascii_dec "_" c then String.prefix "" s else false).
  destruct (ascii_dec "_" c) as [<-|Hne].
  - by destruct s.
  - symmetry. apply Ascii.eqb_neq. congruence.
Qed.

(** A pass over a string and itself goes on with equal remainders or
    returns 0. *)
Lemma body_same a :
  body a a = inl (Ret (Fin 0)) ∨ ∃ a', body a a = inr (a', a').
Proof.
  destruct a as [|x a]; [by left|]. rewrite body_cons.
  destruct (chunk_Some (String x a)) as (c & -> & _); [done|]. cbv zeta.
  rewrite Z.eqb_refl, String.eqb_refl.
  destruct (toNumber c) as [z| | |]; simpl; eauto.
  unfold toDouble. rewrite Z.sub_diag. simpl. eauto.
Qed.

Lemma loop_same fuel : ∀ a,
  (String.length a < fuel)%nat → loop fuel a a = Some (Ret (Fin 0)).
Proof.
  induction fuel as [|fuel IH]; intros a Hlt; [lia|]. simpl.
  destruct (body_same a) as [->|[a' Ha]]; [done|]. rewrite Ha.
  apply body_decreases in Ha. apply IH. lia.
Qed.

(** X2: the default comparator returns 0 for every string compared with
    itself. *)
Theorem naturalOrderComparator_refl (a : string) :
  naturalOrderComparator a a = Some (Ret (Fin 0)).
Proof.
  unfold naturalOrderComparator. rewrite andb_negb_r. apply loop_same. lia.
Qed.

(** X3: the empty string sorts before every other string, also before
    those with a leading underscore; a row without a cell in the column
    ([undefined], which [toStr] turns into the empty string) therefore
    sorts before every row whose cell prints as a non-empty string. *)
Theorem empty_sorts_first (b : string) :
  b ≠ EmptyString →
  naturalOrderComparator "" b = Some (Ret (Fin (-1))) ∧
  naturalOrderComparator b "" = Some (Ret (Fin 1)) ∧
  ∀ v, toStr v = b →
       naturalOrder VUndefined v = Fin (-1) ∧ naturalOrder v VUndefined = Fin 1.
Proof.
  intros Hb.
  assert (naturalOrderComparator "" b = Some (Ret (Fin (-1))) ∧
          naturalOrderComparator b "" = Some (Ret (Fin 1))) as [H1 H2].
  { unfold naturalOrderComparator. destruct b as [|y b]; [done|].
    change (startWith "" "_") with false.
    destruct (startWith (String y b) "_"); simpl; done. }
  split; [done|]. split; [done|].
  intros v <-. unfold naturalOrder.
  change (toStr VUndefined) with EmptyString. by rewrite H1, H2.
Qed.

Lemma empty_sorts_first_witness :
  naturalOrderComparator "" "_id" = Some (Ret (Fin (-1))) ∧
  naturalOrderComparator "_id" "" = Some (Ret (Fin 1)) ∧
  ∀ v, toStr v = "_id" →
       naturalOrder VUndefined v = Fin (-1) ∧ naturalOrder v VUndefined = Fin 1.
Proof. apply (empty_sorts_first "_id"). discriminate. Defined.


(** *** Digit runs *)

Lemma digit_not_space c : isDigit c = true → isWhiteSpace c = false.
Proof.
  unfold isDigit, isWhiteSpace. intros [H1 H2]%andb_true_iff.
  apply N.leb_le in H1, H2.
  destruct (N.leb_spec 9 (code c)), (N.leb_spec (code c) 13),
    (N.eqb_spec (code c) 32), (N.eqb_spec (code c) 160); simpl; try done; lia.
Qed.

Lemma append_cons c s t :
  String.append (String c s) t = String c (String.append s t).
Proof. reflexivity. Qed.

Lemma forallb_append p s t :
  forallb p (String.append s t) = forallb p s && forallb p t.
Proof.
  induction s as [|c s IH]; [done|]. rewrite append_cons. simpl.
  by rewrite IH, andb_assoc.
Qed.

Lemma forallb_rev_app p s : ∀ t,
  forallb p (String.rev_app s t) = forallb p s && forallb p t.
Proof.
  induction s as [|c s IH]; intros t; simpl; [done|].
  rewrite IH. simpl. by rewrite andb_assoc, (andb_comm (forallb p s)).
Qed.

Lemma forallb_rev p s : forallb p (String.rev s) = forallb p s.
Proof. unfold String.rev. rewrite forallb_rev_app. simpl. apply andb_true_r. Qed.

Lemma rev_app_rev_app s : ∀ t u,
  String.rev_app (String.rev_app s t) u = String.rev_app t (String.append s u).
Proof.
  induction s as [|c s IH]; intros t u; [done|]. rewrite append_cons. simpl.
  by rewrite IH.
Qed.

Lemma append_empty s : String.append s EmptyString = s.
Proof. induction s as [|c s IH]; [done|]. by rewrite append_cons, IH. Qed.

Lemma rev_rev s : String.rev (String.rev s) = s.
Proof. unfold String.rev. rewrite rev_app_rev_app. apply append_empty. Qed.

Lemma dropWhile_digits s :
  forallb isDigit s = true → dropWhile isWhiteSpace s = s.
Proof.
  destruct s as [|c s]; simpl; [done|]. intros [Hc _]%andb_true_iff.
  by rewrite (digit_not_space c Hc).
Qed.

Lemma trim_digits s : forallb isDigit s = true → trim s = s.
Proof.
  intros Hs. unfold trim. rewrite (dropWhile_digits s Hs).
  rewrite dropWhile_digits by (by rewrite forallb_rev). apply rev_rev.
Qed.

Lemma decimal_nonneg s : ∀ acc,
  forallb isDigit s = true → 0 ≤ acc → 0 ≤ decimal acc s.
Proof.
  induction s as [|c s IH]; intros acc; simpl; [done|].
  intros [Hc Hs]%andb_true_iff Hacc. apply IH; [done|].
  unfold isDigit in Hc. apply andb_true_iff in Hc as [H1%N.leb_le _]. lia.
Qed.

Lemma toDouble_small z : Z.abs z < 2 ^ 53 → toDouble z = Fin z.
Proof.
  intros Hz. unfold toDouble, round53.
  destruct (Z.ltb_spec (Z.abs z) (2 ^ 53)) as [_|]; [|lia].
  destruct (Z.leb_spec (2 ^ 1024) (Z.abs z)) as [Hbig|_].
  - assert (2 ^ 53 < 2 ^ 1024) by (by apply Z.pow_lt_mono_r). lia.
  - f_equal. lia.
Qed.

(** A run of digits converts to its value. *)
Lemma toNumber_digits s :
  s ≠ EmptyString → forallb isDigit s = true →
  toNumber s = toDouble (decimal 0 s).
Proof.
  intros Hne Hs. unfold toNumber. rewrite (trim_digits s Hs), Hs.
  by destruct s.
Qed.

Lemma takeWhile_all p s : forallb p s = true → takeWhile p s = s.
Proof.
  induction s as [|c s IH]; simpl; [done|]. intros [-> Hs]%andb_true_iff.
  by rewrite IH.
Qed.

(** A digit-free prefix in front of a digit is a chunk of its own. *)
Lemma takeWhile_prefix p s :
  forallb (λ x, negb (isDigit x)) p = true →
  forallb isDigit s = true → s ≠ EmptyString →
  takeWhile (λ x, negb (isDigit x)) (String.append p s) = p.
Proof.
  intros Hp Hs Hne. induction p as [|c p IH].
  - destruct s as [|d s]; [done|]. simpl in *.
    apply andb_true_iff in Hs as [-> _]. done.
  - rewrite append_cons. simpl in *.
    apply andb_true_iff in Hp as [-> Hp]. by rewrite IH.
Qed.

Lemma substring_append p s :
  substring (String.length p) (String.append p s) = s.
Proof. induction p; [done|]. by rewrite append_cons. Qed.

(** The pass over two runs of digits with different values below 2^53. *)
Lemma body_digits a b :
  a ≠ EmptyString → b ≠ EmptyString →
  forallb isDigit a = true → forallb isDigit b = true →
  decimal 0 a < 2 ^ 53 → decimal 0 b < 2 ^ 53 → decimal 0 a ≠ decimal 0 b →
  body a b = inl (Ret (Fin (decimal 0 a - decimal 0 b))).
Proof.
  intros Ha Hb Hda Hdb Hva Hvb Hne.
  pose proof (decimal_nonneg a 0 Hda ltac:(lia)).
  pose proof (decimal_nonneg b 0 Hdb ltac:(lia)).
  destruct a as [|x a], b as [|y b]; try done. rewrite body_cons.
  assert (chunk (String x a) = Some (String x a)) as ->.
  { unfold chunk. simpl in Hda. apply andb_true_iff in Hda as [Hx Hda'].
    rewrite Hx. f_equal. apply takeWhile_all. simpl. by rewrite Hx. }
  assert (chunk (String y b) = Some (String y b)) as ->.
  { unfold chunk. simpl in Hdb. apply andb_true_iff in Hdb as [Hy Hdb'].
    rewrite Hy. f_equal. apply takeWhile_all. simpl. by rewrite Hy. }
  cbv zeta. rewrite !toNumber_digits by done.
  rewrite !toDouble_small by lia.
  change (sub (Fin ?u) (Fin ?v)) with (toDouble (u - v)).
  rewrite toDouble_small by lia. cbn [isNaN negb andb truthy].
  destruct (Z.eqb_spec (decimal 0 (String x a) - decimal 0 (String y b)) 0);
    [lia|done].
Qed.

(** X4: two strings that share a prefix without digits and go on with
    different runs of digits, both below 2^53 in value, compare as the
    difference of the two values, however many digits or leading zeros
    each run has: "img2" sorts before "img10".  The prefix may be empty;
    otherwise it must not itself convert to a number (as blanks and
    "Infinity" do). *)
Theorem digit_runs_compare_by_value (p a b : string) :
  forallb (λ x, negb (isDigit x)) p = true →
  p = EmptyString ∨ isNaN (toNumber p) = true →
  a ≠ EmptyString → b ≠ EmptyString →
  forallb isDigit a = true → forallb isDigit b = true →
  decimal 0 a < 2 ^ 53 → decimal 0 b < 2 ^ 53 → decimal 0 a ≠ decimal 0 b →
  naturalOrderComparator (String.append p a) (String.append p b) =
    Some (Ret (Fin (decimal 0 a - decimal 0 b))).
Proof.
  intros Hp Hnum Ha Hb Hda Hdb Hva Hvb Hne.
  pose proof (body_digits a b Ha Hb Hda Hdb Hva Hvb Hne) as Hbody.
  unfold naturalOrderComparator.
  destruct p as [|c p].
  - change (String.append "" ?s) with s.
    assert (∀ s, s ≠ EmptyString → forallb isDigit s = true →
                 startWith s "_" = false) as Hund.
    { intros [|d s] Hs Hd; [done|]. simpl in Hd.
      apply andb_true_iff in Hd as [Hd _]. rewrite startWith_underscore.
      destruct (Ascii.eqb_spec d "_") as [->|]; [by vm_compute in Hd|done]. }
    rewrite !Hund by done. cbn [andb negb]. simpl loop. by rewrite Hbody.
  - assert (startWith (String.append (String c p) a) "_" =
            startWith (String.append (String c p) b) "_") as ->.
    { by rewrite !append_cons, !startWith_underscore. }
    rewrite andb_negb_r.
    eapply (loop_fuel_irrelevant 2); [|simpl; lia].
    change (loop 2 ?s ?t) with
      (match body s t with inl r => Some r | inr (a', b') => loop 1 a' b' end).
    assert (body (String.append (String c p) a) (String.append (String c p) b)
            = inr (a, b)) as ->.
    { destruct Hnum as [|Hnan]; [done|].
      rewrite !append_cons, body_cons.
      assert (∀ s, forallb isDigit s = true → s ≠ EmptyString →
                chunk (String c (String.append p s)) = Some (String c p)) as Hchunk.
      { intros s Hs Hsne. unfold chunk. simpl in Hp.
        apply andb_true_iff in Hp as [Hc Hp'].
        apply negb_true_iff in Hc. rewrite Hc. f_equal.
        apply (takeWhile_prefix (String c p) s); [|done..].
        simpl. by rewrite Hc. }
      rewrite !Hchunk by done. cbv zeta. rewrite Hnan. cbn [negb andb].
      rewrite String.eqb_refl. cbn [negb].
      rewrite <- !append_cons. by rewrite !substring_append. }
    simpl loop. by rewrite Hbody.
Qed.

Lemma digit_runs_compare_by_value_witness :
  naturalOrderComparator (String.append "img" "2") (String.append "img" "010") =
    Some (Ret (Fin (decimal 0 "2" - decimal 0 "010"))).
Proof.
  apply (digit_runs_compare_by_value "img" "2" "010");
    first [reflexivity | discriminate | (right; reflexivity) | done].
Defined.

(** *** Strings without digits *)

(** X19: for two different strings without digits that do not convert to
    a number (as blank strings and "Infinity" do), both or neither with a
    leading underscore, the default comparator is the comparison of the
    strings by code units: -1 when [a < b], 1 otherwise. *)
Theorem words_compare_as_strings (a b : string) :
  forallb (λ x, negb (isDigit x)) a = true →
  forallb (λ x, negb (isDigit x)) b = true →
  isNaN (toNumber a) = true → isNaN (toNumber b) = true →
  startWith a "_" = startWith b "_" → a ≠ b →
  naturalOrderComparator a b =
    Some (Ret (Fin (if String.ltb a b then -1 else 1))).
Proof.
  intros Ha Hb Hna Hnb Hund Hne. unfold naturalOrderComparator.
  rewrite Hund, andb_negb_r.
  destruct a as [|x a]; [done|]. destruct b as [|y b]; [done|].
  cbn [loop]. rewrite body_cons.
  assert (∀ c s, forallb (λ x, negb (isDigit x)) (String c s) = true →
                 chunk (String c s) = Some (String c s)) as Hchunk.
  { intros c s Hs. unfold chunk. pose proof Hs as Hs'. simpl in Hs'.
    apply andb_true_iff in Hs' as [Hc _]. apply negb_true_iff in Hc.
    rewrite Hc. f_equal. by apply takeWhile_all. }
  rewrite !Hchunk by done. cbv zeta. rewrite Hna, Hnb. cbn [negb andb].
  destruct (String.eqb_spec (String x a) (String y b)); [done|]. done.
Qed.

Lemma words_compare_as_strings_witness :
  naturalOrderComparator "Licia" "Luna" =
    Some (Ret (Fin (if String.ltb "Licia" "Luna" then -1 else 1))).
Proof.
  apply (words_compare_as_strings "Licia" "Luna");
    first [reflexivity | discriminate].
Defined.

End ComparatorMore.

(** * More about the DataGrid *)

Module GridMore.
Import JS DataGrid LayoutFacts GridFacts.

(** *** applyColumnWeights on any weights *)

Lemma sumWeights_NaN cols : sumWeights None cols = None.
Proof. induction cols as [|c cols IH]; simpl; [done|]. apply IH. Qed.

Lemma sumWeights_undefined cols : ∀ acc,
  Exists (λ c, weight c = None) cols → sumWeights acc cols = None.
Proof.
  induction cols as [|c cols IH]; intros acc Hex; [by inversion Hex|].
  simpl. inversion_clear Hex as [?? Hc|?? Hex'].
  - rewrite Hc. destruct acc; simpl; apply sumWeights_NaN.
  - by apply IH.
Qed.

Lemma layout_NaN W cols : ∀ s,
  Forall (λ p, p = (0, minColumnWidth)) (layout W None s 0 cols).
Proof.
  induction cols as [|c cols IH]; intros s; simpl; [constructor|].
  assert (offsetOf (addW s (weight c)) None W = 0) as ->.
  { unfold offsetOf. by destruct (addW s (weight c)). }
  constructor; [done|apply IH].
Qed.

Lemma widths_floor_always_aux (tableWidth : Z) (cols : list IColumn) :
  0 < tableWidth →
  ∃ ws, applyColumnWeights tableWidth cols = Some ws ∧
        length ws = length cols ∧ Forall (λ w, 14 ≤ w) ws.
Proof.
  intros Hlt. unfold applyColumnWeights.
  destruct (Z.leb_spec tableWidth 0); [lia|].
  eexists. split; [reflexivity|]. unfold columnLayout.
  split; [by rewrite length_map, layout_length|apply layout_min_width].
Qed.

(** X5: whatever the weights are (negative, zero or undefined), for a
    container width above zero [applyColumnWeights] writes one [<col>] per
    column and none narrower than 14 pixels; if a weight is undefined,
    the total is NaN and every column is exactly 14 pixels wide; for a
    width of zero or below it writes nothing. *)
Theorem widths_floor_always (tableWidth : Z) (cols : list IColumn) :
  (tableWidth ≤ 0 → applyColumnWeights tableWidth cols = None) ∧
  (0 < tableWidth →
     ∃ ws, applyColumnWeights tableWidth cols = Some ws ∧
           length ws = length cols ∧
           Forall (λ w, 14 ≤ w) ws ∧
           (Exists (λ c, weight c = None) cols → Forall (λ w, w = 14) ws)).
Proof.
  split.
  - intros Hle. unfold applyColumnWeights.
    by destruct (Z.leb_spec tableWidth 0); [|lia].
  - intros Hlt.
    destruct (widths_floor_always_aux tableWidth cols Hlt) as (ws & Hws & Hlen & Hmin).
    exists ws. do 3 (split; [done|]).
    intros Hex. unfold applyColumnWeights in Hws.
    destruct (Z.leb_spec tableWidth 0); [lia|]. injection Hws as <-.
    unfold columnLayout.
    rewrite (sumWeights_undefined cols _ Hex), Forall_fmap.
    eapply Forall_impl; [apply layout_NaN|]. by intros p ->.
Qed.

Lemma widths_floor_always_witness :
  let cols := [ {| id := "name"; title := "Name"; weight := Some 1%Q;
                   sortable := true; comparator := None |};
                {| id := "site"; title := "Site"; weight := None;
                   sortable := false; comparator := None |} ] in
  ∃ ws, applyColumnWeights 300 cols = Some ws ∧
        length ws = length cols ∧
        Forall (λ w, 14 ≤ w) ws ∧
        (Exists (λ c, weight c = None) cols → Forall (λ w, w = 14) ws).
Proof.
  intros cols. destruct (widths_floor_always 300 cols) as [_ Hsome].
  apply Hsome. lia.
Defined.

(** *** A container without width *)

Lemma updateWeights_zero g m : offsetWidth m = 0 → updateWeights g m = g.
Proof.
  intros Hm. destruct g. unfold updateWeights, infers, applyColumnWeights.
  simpl. rewrite Hm. simpl. by rewrite andb_false_r, orb_false_r.
Qed.

(** X6: while the container measures zero pixels (a grid that is not
    displayed), [updateWeights] changes nothing: no weight is inferred, no
    [<col>] is written and the inference stays due, so the first resize
    with a width runs it on a grid that was built without width. *)
Theorem zero_width_defers_inference (g : Grid) (ms : list Measure) (m : Measure) :
  Forall (λ m', offsetWidth m' = 0) ms →
  resizes g ms = g ∧
  inferenceRuns g ms = 0%nat ∧
  (columnWidthsInitialized g = false → offsetWidth m ≠ 0 →
   inferenceRuns g (ms ++ [m]) = 1%nat).
Proof.
  intros Hms. induction Hms as [|m' ms Hm' _ IH]; simpl.
  - split; [done|]. split; [done|]. intros Hinit Hm. unfold infers.
    rewrite Hinit. simpl. by destruct (Z.eqb_spec (offsetWidth m) 0).
  - rewrite (updateWeights_zero g m' Hm').
    assert (infers g m' = false) as ->.
    { unfold infers. rewrite Hm'. apply andb_false_r. }
    done.
Qed.

Lemma zero_width_defers_inference_witness :
  let hidden := {| offsetWidth := 0; thOffsetWidth := λ _, 0 |} in
  let shown := {| offsetWidth := 300; thOffsetWidth := λ _, 100 |} in
  let g := new [ {| id := "name"; title := "Name"; weight := None;
                    sortable := true; comparator := None |} ] hidden in
  resizes g [hidden; hidden] = g ∧
  inferenceRuns g [hidden; hidden] = 0%nat ∧
  (columnWidthsInitialized g = false → offsetWidth shown ≠ 0 →
   inferenceRuns g ([hidden; hidden] ++ [shown]) = 1%nat).
Proof.
  intros hidden shown g.
  apply (zero_width_defers_inference g [hidden; hidden] shown).
  repeat constructor.
Defined.

(** *** The column map *)

Lemma buildColumnMap_other cols : ∀ k m id0,
  (∀ c, c ∈ cols → id c ≠ id0) → buildColumnMap k cols m !! id0 = m !! id0.
Proof.
  intros k m id0 Hno.
  destruct (buildColumnMap_lookup cols k m id0) as [(j & c & _ & Hj & Hid)|[H _]];
    [|done].
  destruct (Hno c); [by eapply list_elem_of_lookup_2|done].
Qed.

Lemma buildColumnMap_last cols : ∀ k m j c,
  cols !! j = Some c →
  (∀ j' c', (j < j')%nat → cols !! j' = Some c' → id c' ≠ id c) →
  buildColumnMap k cols m !! id c = Some (k + j)%nat.
Proof.
  induction cols as [|a cols IH]; intros k m j c Hj Hlast; [done|].
  destruct j as [|j]; simpl in *.
  - injection Hj as ->. rewrite buildColumnMap_other.
    + rewrite lookup_insert_eq. f_equal. lia.
    + intros c' [j' Hj']%list_elem_of_lookup_1. apply (Hlast (S j') c'); [lia|done].
  - rewrite (IH (S k) _ j c Hj); [f_equal; lia|].
    intros j' c' Hlt Hj'. apply (Hlast (S j') c'); [lia|done].
Qed.

Lemma new_columns cols m j c :
  cols !! j = Some c →
  ∃ column, columns (new cols m) !! j = Some column ∧
            id column = id c ∧ comparator column = comparator c ∧
            sortable column = sortable c ∧ title column = title c.
Proof.
  intros Hj. unfold new, updateWeights. simpl. destruct (infers _ m).
  - rewrite (inferWeights_lookup m cols 0 j c Hj).
    eexists. split; [reflexivity|]. by destruct (noWeight (weight c)).
  - exists c. by rewrite Hj.
Qed.



(** *** The life of a grid *)

(** What happens to a grid after its construction: a resize notification
    (with what the DOM measures then), a call of [append], a click on the
    i-th header cell. *)
Inductive GridEvent : Type :=
  | Resized (m : Measure)
  | Appended (data : gmap string value)
  | Clicked (i : nat).

Definition gridStep (e : GridEvent) (g : Grid) : option Grid :=
  match e with
  | Resized m => Some (updateWeights g m)
  | Appended data => Some (append data g)
  | Clicked i => click i g
  end.

Fixpoint gridRun (es : list GridEvent) (g : Grid) : option Grid :=
  match es with
  | [] => Some g
  | e :: es' => gridStep e g ≫= gridRun es'
  end.

(** The rows handed to [append], oldest first. *)
Definition appended (es : list GridEvent) : list (gmap string value) :=
  omap (λ e, match e with Appended data => Some data | _ => None end) es.

(** What a click does, whichever cell it hits. *)
Lemma click_cases i g g' :
  click i g = Some g' →
  g' = g ∨
  ∃ th id column,
    headerRow g !! i = Some th ∧ data_id th = Some id ∧
    lookupColumn g id = Some column ∧
    nodes g' =
      sort (compareNodes (comparatorOf column) id (isAscendingOf (data_order th)))
        (nodes g) ∧
    headerRow g' =
      map (afterClick id)
        (<[i := setOrder (if isAscendingOf (data_order th)
                          then "descending" else "ascending") th]>
           (headerRow g)) ∧
    columns g' = columns g ∧ columnMap g' = columnMap g ∧
    columnWidthsInitialized g' = columnWidthsInitialized g ∧
    colgroup g' = colgroup g.
Proof.
  unfold click.
  destruct (headerRow g !! i) as [th|] eqn:Hth; simpl; [|intros [= <-]; by left].
  destruct (data_id th) as [id0|] eqn:Hid; simpl; [|intros [= <-]; by left].
  unfold sortNodes.
  destruct (lookupColumn _ id0) as [column|] eqn:Hcol; [|done].
  intros [= <-]. right. exists th, id0, column. done.
Qed.

Lemma gridRun_invariant (P : Grid → Prop) :
  (∀ g m, P g → P (updateWeights g m)) →
  (∀ g data, P g → P (append data g)) →
  (∀ g i g', P g → click i g = Some g' → P g') →
  ∀ es g g', P g → gridRun es g = Some g' → P g'.
Proof.
  intros Hm Ha Hc. induction es as [|e es IH]; intros g g' HP; simpl.
  - by intros [= <-].
  - destruct e as [m|data|i]; simpl.
    + apply IH, Hm, HP.
    + apply IH, Ha, HP.
    + destruct (click i g) as [g1|] eqn:Hclick; [|done]. simpl.
      apply IH. by eapply Hc.
Qed.

Lemma gridRun_headersKnown es : ∀ g,
  headersKnown g →
  ∃ g', gridRun es g = Some g' ∧ headersKnown g' ∧
        columnMap g' = columnMap g ∧
        map data_id (headerRow g') = map data_id (headerRow g).
Proof.
  induction es as [|e es IH]; intros g Hk; simpl; [by exists g|].
  destruct e as [m|data|i]; simpl.
  - destruct (IH _ (updateWeights_headersKnown g m Hk)) as (g' & Hrun & ? & Hmap & Hids).
    by exists g'.
  - destruct (IH _ (append_headersKnown data g Hk)) as (g' & Hrun & ? & Hmap & Hids).
    by exists g'.
  - destruct (click_headersKnown i g Hk) as (g1 & Hclick & Hk1).
    rewrite Hclick. simpl.
    destruct (IH _ Hk1) as (g' & Hrun & ? & Hmap & Hids). exists g'.
    split; [done|]. split; [done|]. rewrite Hmap, Hids.
    destruct (click_cases i g g1 Hclick)
      as [->|(th & id0 & column & Hth & Hid & _ & _ & Hhead & _ & Hcm & _)];
      [done|].
    split; [done|]. rewrite Hhead, map_map.
    apply list_eq. intros j. rewrite !list_lookup_fmap.
    destruct (decide (i = j)) as [<-|Hij].
    + rewrite list_lookup_insert_eq by (by eapply lookup_lt_Some).
      rewrite Hth. simpl. f_equal. unfold afterClick. by case_bool_decide.
    + rewrite list_lookup_insert_ne by done.
      destruct (headerRow g !! j) as [th'|]; [|done]. simpl. f_equal.
      unfold afterClick. by case_bool_decide.
Qed.


(** X9: sorting and resizing neither lose nor duplicate a row: after
    any run of events the rows of the grid are the rows it had, together
    with the rows handed to [append], in some order. *)
Theorem rows_are_kept (es : list GridEvent) (g g' : Grid) :
  gridRun es g = Some g' → nodes g' ≡ₚ nodes g ++ appended es.
Proof.
  revert g. induction es as [|e es IH]; intros g; simpl.
  - intros [= <-]. by rewrite app_nil_r.
  - destruct e as [m|data|i]; simpl.
    + intros Hrun. by rewrite (IH _ Hrun).
    + intros Hrun. rewrite (IH _ Hrun). unfold appended. simpl.
      by rewrite <- app_assoc.
    + destruct (click i g) as [g1|] eqn:Hclick; [|done]. simpl.
      intros Hrun. rewrite (IH _ Hrun). apply Permutation_app_tail.
      destruct (click_cases i g g1 Hclick)
        as [->|(th & id0 & column & _ & _ & _ & -> & _)]; [done|].
      apply sort_Permutation.
Qed.

Lemma exampleGrid_headersKnown : headersKnown exampleGrid.
Proof. repeat apply append_headersKnown. apply new_headersKnown. Qed.

Lemma rows_are_kept_witness :
  let es := [Appended {["name" := VString "b"]}; Clicked 0%nat;
             Appended {["name" := VString "a"]};
             Resized {| offsetWidth := 200; thOffsetWidth := λ _, 100 |};
             Clicked 0%nat] in
  ∃ g', gridRun es exampleGrid = Some g' ∧
        nodes g' ≡ₚ nodes exampleGrid ++ appended es.
Proof.
  intros es.
  destruct (gridRun_headersKnown es exampleGrid exampleGrid_headersKnown)
    as (g' & Hrun & _).
  exists g'. split; [exact Hrun|]. exact (rows_are_kept es exampleGrid g' Hrun).
Defined.

(** *** What the colgroup is computed from *)

Lemma inferWeights_defined m cols : ∀ k,
  Forall (λ c, is_Some (weight c)) (inferWeights m k cols).
Proof.
  induction cols as [|c cols IH]; intros k; simpl; constructor; [|apply IH].
  destruct (noWeight (weight c)) eqn:Hw; simpl; [by eexists|].
  destruct (weight c); [by eexists|done].
Qed.

Lemma sumWeights_is_Some cols : ∀ q,
  Forall (λ c, is_Some (weight c)) cols → is_Some (sumWeights (Some q) cols).
Proof.
  induction cols as [|c cols IH]; intros q Hall; simpl; [by eexists|].
  inversion_clear Hall as [|?? [w Hw] Hall']. rewrite Hw. simpl. by apply IH.
Qed.

(** The state of the widths: before the inference nothing is written;
    after it every weight is a number and the colgroup, if written, is
    the layout of the present weights at a width above zero. *)
Definition laidOut (g : Grid) : Prop :=
  if columnWidthsInitialized g
  then Forall (λ c, is_Some (weight c)) (columns g) ∧
       (colgroup g = [] ∨
        ∃ W, 0 < W ∧ applyColumnWeights W (columns g) = Some (colgroup g))
  else colgroup g = [].

Lemma updateWeights_laidOut g m : laidOut g → laidOut (updateWeights g m).
Proof.
  unfold laidOut, updateWeights, infers. simpl.
  destruct (columnWidthsInitialized g); simpl.
  - intros [Hall Hcg]. split; [done|].
    destruct (applyColumnWeights (offsetWidth m) (columns g)) as [ws|] eqn:Hws;
      [|done].
    right. exists (offsetWidth m). split; [|done].
    unfold applyColumnWeights in Hws.
    destruct (Z.leb_spec (offsetWidth m) 0); [done|lia].
  - intros Hcg. destruct (Z.eqb_spec (offsetWidth m) 0) as [H0|H0]; simpl.
    + unfold applyColumnWeights. rewrite H0. done.
    + split; [apply inferWeights_defined|].
      destruct (applyColumnWeights _ _) as [ws|] eqn:Hws; [|by left].
      right. exists (offsetWidth m). split; [|done].
      unfold applyColumnWeights in Hws.
      destruct (Z.leb_spec (offsetWidth m) 0); [done|lia].
Qed.

Lemma click_laidOut g i g' : laidOut g → click i g = Some g' → laidOut g'.
Proof.
  intros Hl Hclick.
  destruct (click_cases i g g' Hclick)
    as [->|(th & id0 & column & _ & _ & _ & _ & _ & Hcols & _ & Hinit & Hcg)];
    [done|].
  unfold laidOut. by rewrite Hinit, Hcols, Hcg.
Qed.



(** *** The sort indicator *)



(** *** Resizes *)

Lemma updateWeights_last g m' m :
  columnWidthsInitialized g = true → 0 < offsetWidth m →
  updateWeights (updateWeights g m') m = updateWeights g m.
Proof.
  intros Hinit Hm. destruct g as [cols cm init ns hr cg]. simpl in Hinit.
  subst init. unfold updateWeights, infers. simpl.
  unfold applyColumnWeights at 1 3.
  by destruct (Z.leb_spec (offsetWidth m) 0); [lia|].
Qed.

(** X20: the layout has no memory.  A resize notification that
    measures what the one before it measured changes nothing, and once
    the weights are inferred the grid after any number of resizes is the
    grid a single resize to the last width gives, whenever that width is
    above zero. *)
Theorem resizes_depend_on_last_width (g : Grid) (ms : list Measure) (m : Measure) :
  updateWeights (updateWeights g m) m = updateWeights g m ∧
  (columnWidthsInitialized g = true → 0 < offsetWidth m →
   resizes g (ms ++ [m]) = updateWeights g m).
Proof.
  split.
  - destruct g as [cols cm init ns hr cg].
    unfold updateWeights, infers. simpl.
    destruct init; simpl.
    + by destruct (applyColumnWeights (offsetWidth m) cols).
    + destruct (Z.eqb_spec (offsetWidth m) 0) as [H0|H0]; simpl.
      * unfold applyColumnWeights. rewrite H0. done.
      * by destruct (applyColumnWeights (offsetWidth m) (inferWeights m 0 cols)).
  - intros Hinit Hm. revert g Hinit.
    induction ms as [|m' ms IH]; intros g Hinit; [done|].
    change (resizes g ((m' :: ms) ++ [m]))
      with (resizes (updateWeights g m') (ms ++ [m])).
    rewrite IH; [by apply updateWeights_last|].
    unfold updateWeights. simpl. by rewrite Hinit.
Qed.

Lemma resizes_depend_on_last_width_witness :
  let wide := {| offsetWidth := 400; thOffsetWidth := λ _, 200 |} in
  let narrow := {| offsetWidth := 20; thOffsetWidth := λ _, 10 |} in
  resizes exampleGrid ([narrow; wide; narrow] ++ [wide]) =
    updateWeights exampleGrid wide.
Proof.
  intros wide narrow.
  destruct (resizes_depend_on_last_width exampleGrid [narrow; wide; narrow] wide)
    as [_ Hlast].
  apply Hlast; [reflexivity|done].
Defined.

End GridMore.

(** * More about the Menu *)

Module MenuMore.
Import Menu MenuFacts.

(** *** Where positionContent puts a menu *)

Lemma Qltb_ge x y : Qltb x y = false ↔ (y <= x)%Q.
Proof.
  unfold Qltb. rewrite negb_false_iff, Qle_bool_iff. done.
Qed.



(** *** What hide closes *)

(** The menus open below [m]: [m], the menu in its [subMenu], the menu
    in that one's, and so on, to a depth of [fuel]. *)
Fixpoint chain (fuel : nat) (w : World) (m : ref) : list ref :=
  match fuel with
  | O => []
  | S fuel' =>
      m :: match subMenu (heap w m) with
           | Some s => chain fuel' w s
           | None => []
           end
  end.

(** A menu after [hide]: out of the document, no submenu recorded. *)
Definition closed (o : Menu) : Menu := setSubMenu None (setAttached false o).

Lemma chain_ext fuel w w' : ∀ m,
  (∀ r, subMenu (heap w' r) = subMenu (heap w r)) →
  chain fuel w' m = chain fuel w m.
Proof.
  induction fuel as [|fuel IH]; intros m Hsub; simpl; [done|].
  rewrite Hsub. destruct (subMenu (heap w m)); [|done]. by rewrite IH.
Qed.

Lemma hide_chain fuel : ∀ m w w',
  hide fuel m w = Some w' →
  (∀ r, heap w' r =
        if decide (r ∈ chain fuel w m) then closed (heap w r) else heap w r) ∧
  log w' = log w ++ map Remove (chain fuel w m).
Proof.
  induction fuel as [|fuel IH]; intros m w w' Hhide; [done|].
  simpl in Hhide. unfold hideSubMenuWith in Hhide.
  set (w0 := emit (Remove m) (update m (setAttached false) w)) in *.
  assert (∀ r, subMenu (heap w0 r) = subMenu (heap w r)) as Hs0.
  { intros r. simpl. by case_decide. }
  simpl. rewrite Hs0 in Hhide.
  destruct (subMenu (heap w m)) as [s|] eqn:Hsub.
  - destruct (hide fuel s w0) as [w1|] eqn:Hrec; [|done]. injection Hhide as <-.
    destruct (IH _ _ _ Hrec) as [Hheap Hlog].
    rewrite (chain_ext fuel w w0 s Hs0) in Hheap, Hlog.
    assert (heap w0 m = setAttached false (heap w m)) as Hm0.
    { simpl. by rewrite decide_True. }
    assert (∀ r, r ≠ m → heap w0 r = heap w r) as Hr0.
    { intros r Hr. simpl. by rewrite decide_False. }
    split.
    + intros r. simpl. rewrite Hheap.
      destruct (decide (r = m)) as [->|Hr].
      * rewrite (decide_True (P := m ∈ m :: chain fuel w s))
          by (apply elem_of_cons; by left).
        rewrite Hm0. case_decide; unfold closed; by destruct (heap w m).
      * rewrite (Hr0 r Hr). case_decide as Hin.
        -- rewrite decide_True by (apply elem_of_cons; by right). done.
        -- rewrite decide_False; [done|].
           by intros [?|?]%elem_of_cons.
    + simpl. rewrite Hlog. simpl. by rewrite <- app_assoc.
  - injection Hhide as <-. split; [|done].
    intros r. simpl. destruct (decide (r = m)) as [->|Hr].
    + rewrite decide_True by (apply elem_of_cons; by left). unfold closed.
      destruct (heap w m) eqn:Hm. simpl in *. by rewrite Hsub.
    + rewrite decide_False; [done|].
      intros [?|Hin]%elem_of_cons; [done|by apply elem_of_nil in Hin].
Qed.

(** The chain below [m] ends within [fuel] menus. *)
Fixpoint complete (fuel : nat) (w : World) (m : ref) : Prop :=
  match fuel with
  | O => False
  | S fuel' =>
      match subMenu (heap w m) with
      | Some s => complete fuel' w s
      | None => True
      end
  end.

Lemma complete_ext fuel w w' : ∀ m,
  (∀ r, subMenu (heap w' r) = subMenu (heap w r)) →
  complete fuel w' m → complete fuel w m.
Proof.
  induction fuel as [|fuel IH]; intros m Hsub; simpl; [done|].
  rewrite Hsub. destruct (subMenu (heap w m)); [|done]. by apply IH.
Qed.

(** [hide] returns only if the chain ends. *)
Lemma hide_complete fuel : ∀ m w w', hide fuel m w = Some w' → complete fuel w m.
Proof.
  induction fuel as [|fuel IH]; intros m w w' Hhide; [done|].
  simpl in Hhide. unfold hideSubMenuWith in Hhide.
  set (w0 := emit (Remove m) (update m (setAttached false) w)) in *.
  assert (∀ r, subMenu (heap w0 r) = subMenu (heap w r)) as Hs0.
  { intros r. simpl. by case_decide. }
  simpl. rewrite Hs0 in Hhide.
  destruct (subMenu (heap w m)) as [s|]; [|done].
  destruct (hide fuel s w0) as [w1|] eqn:Hrec; [|done].
  eapply complete_ext; [exact Hs0|]. by eapply IH.
Qed.

Lemma chain_more w n : ∀ m n',
  complete n w m → (n ≤ n')%nat → chain n' w m = chain n w m.
Proof.
  induction n as [|n IH]; intros m n' Hc Hle; [done|].
  destruct n' as [|n']; [lia|]. simpl in *.
  destruct (subMenu (heap w m)); [|done]. f_equal. apply IH; [done|lia].
Qed.

Lemma chain_suffix w n : ∀ m r,
  complete n w m → r ∈ chain n w m →
  ∃ k, (k ≤ n)%nat ∧ complete k w r ∧
       (length (chain k w r) ≤ length (chain n w m))%nat.
Proof.
  induction n as [|n IH]; intros m r Hc Hr; [done|].
  apply elem_of_cons in Hr as [->|Hr]; [by exists (S n)|].
  simpl in *. destruct (subMenu (heap w m)) as [s|];
    [|by apply elem_of_nil in Hr].
  destruct (IH s r Hc Hr) as (k & Hk & Hck & Hlen).
  exists k. simpl. split; [lia|]. split; [done|lia].
Qed.

Lemma chain_NoDup w n : ∀ m, complete n w m → NoDup (chain n w m).
Proof.
  induction n as [|n IH]; intros m Hc; [constructor|].
  pose proof (chain_suffix w (S n) m) as Hsuf.
  pose proof (chain_more w) as Hmore.
  simpl in *. destruct (subMenu (heap w m)) as [s|] eqn:Hsub;
    [|apply NoDup_singleton].
  apply NoDup_cons. split; [|by apply IH].
  intros Hin.
  destruct (chain_suffix w n s m Hc Hin) as (k & Hk & Hck & Hlen).
  assert (chain (S n) w m = chain k w m) as Heq.
  { apply chain_more; [done|lia]. }
  simpl in Heq. rewrite Hsub in Heq. rewrite <- Heq in Hlen. simpl in Hlen. lia.
Qed.

(** X13: a completed [hide] closes the menu and every menu open below
    it, and nothing else: each of them is taken out of the document, once
    and from the top down, and loses its [subMenu]; its items and its
    style stay; every other menu is left as it was. *)
Theorem hide_closes_the_open_chain (fuel : nat) (m : ref) (w w' : World) :
  hide fuel m w = Some w' →
  (∀ r, r ∈ chain fuel w m →
        attached (heap w' r) = false ∧ subMenu (heap w' r) = None ∧
        menuItems (heap w' r) = menuItems (heap w r) ∧
        css (heap w' r) = css (heap w r)) ∧
  (∀ r, r ∉ chain fuel w m → heap w' r = heap w r) ∧
  log w' = log w ++ map Remove (chain fuel w m) ∧
  NoDup (chain fuel w m).
Proof.
  intros Hhide. destruct (hide_chain fuel m w w' Hhide) as [Hheap Hlog].
  split; [|split; [|split; [done|]]].
  - intros r Hr. rewrite Hheap, decide_True by done. done.
  - intros r Hr. by rewrite Hheap, decide_False.
  - eapply chain_NoDup, hide_complete, Hhide.
Qed.

Lemma hide_closes_the_open_chain_witness :
  ∃ w',
    hide 2 0%nat afterHover = Some w' ∧
    chain 2 afterHover 0%nat = [0; 1]%nat ∧
    (∀ r, r ∈ chain 2 afterHover 0%nat →
          attached (heap w' r) = false ∧ subMenu (heap w' r) = None ∧
          menuItems (heap w' r) = menuItems (heap afterHover r) ∧
          css (heap w' r) = css (heap afterHover r)) ∧
    (∀ r, r ∉ chain 2 afterHover 0%nat → heap w' r = heap afterHover r) ∧
    log w' = log afterHover ++ map Remove (chain 2 afterHover 0%nat) ∧
    NoDup (chain 2 afterHover 0%nat).
Proof.
  eexists. split; [reflexivity|]. split; [reflexivity|].
  apply (hide_closes_the_open_chain 2 0%nat afterHover). reflexivity.
Defined.

(** *** What show leaves *)

Lemma chain_head fuel m w w' : hide fuel m w = Some w' → m ∈ chain fuel w m.
Proof. destruct fuel; [done|]. intros _. apply elem_of_cons. by left. Qed.

Lemma show_chain fuel d m x y p w w' :
  show fuel d m x y p w = Some w' →
  heap w' m =
    {| menuItems := menuItems (heap w m); subMenu := None; attached := true;
       css := Some (positionContent d (containerOffset d m) x y
                      ((λ q, fst (containerOffset d q)) <$> p)) |} ∧
  (∀ r, r ≠ m →
        heap w' r =
        if decide (r ∈ chain fuel w m) then closed (heap w r) else heap w r) ∧
  log w' = log w ++ map Remove (chain fuel w m) ++ [Append m].
Proof.
  unfold show. intros Hshow.
  destruct (hide fuel m w) as [w1|] eqn:Hhide; [|done]. injection Hshow as <-.
  destruct (hide_chain fuel m w w1 Hhide) as [Hheap Hlog].
  split; [|split].
  - simpl. rewrite !decide_True by done. rewrite Hheap.
    rewrite decide_True by (by eapply chain_head). done.
  - intros r Hr. simpl. rewrite !decide_False by done. apply Hheap.
  - simpl. rewrite Hlog. by rewrite <- app_assoc.
Qed.

(** X14: [show] starts over: a completed call first closes the menu
    and every menu open below it, then appends the menu to the glass pane
    and positions it; the menu ends in the document with no submenu open
    and with the style [positionContent] computes for the anchor; the
    menus that were open below it are closed and no other menu changes. *)
Theorem show_starts_over (fuel : nat) (d : Dom) (m : ref) (x y : Q)
    (p : option ref) (w w' : World) :
  show fuel d m x y p w = Some w' →
  heap w' m =
    {| menuItems := menuItems (heap w m); subMenu := None; attached := true;
       css := Some (positionContent d (containerOffset d m) x y
                      ((λ q, fst (containerOffset d q)) <$> p)) |} ∧
  (∀ r, r ≠ m → r ∈ chain fuel w m → heap w' r = closed (heap w r)) ∧
  (∀ r, r ∉ chain fuel w m → heap w' r = heap w r) ∧
  log w' = log w ++ map Remove (chain fuel w m) ++ [Append m].
Proof.
  intros Hshow. destruct (show_chain _ _ _ _ _ _ _ _ Hshow) as (Hm & Hr & Hlog).
  split; [done|]. split; [|split; [|done]].
  - intros r Hne Hin. by rewrite Hr, decide_True.
  - intros r Hin. rewrite Hr, decide_False; [done..|].
    intros ->. apply Hin. unfold show in Hshow.
    destruct (hide fuel m w) as [w1|] eqn:Hhide; [|done]. by eapply chain_head.
Qed.

Lemma show_starts_over_witness :
  ∃ w',
    show 2 screen 0%nat 100 100 None afterHover = Some w' ∧
    heap w' 0%nat =
      {| menuItems := menuItems (heap afterHover 0%nat); subMenu := None;
         attached := true;
         css := Some (positionContent screen (containerOffset screen 0%nat)
                        100 100 None) |} ∧
    (∀ r, r ≠ 0%nat → r ∈ chain 2 afterHover 0%nat →
          heap w' r = closed (heap afterHover r)) ∧
    (∀ r, r ∉ chain 2 afterHover 0%nat → heap w' r = heap afterHover r) ∧
    log w' = log afterHover ++ map Remove [0; 1]%nat ++ [Append 0%nat].
Proof.
  eexists. split; [reflexivity|].
  apply (show_starts_over 2 screen 0%nat 100 100 None afterHover). reflexivity.
Defined.

(** *** Hovering an item with a submenu *)

(** The anchor [showSubMenu] hands to [show] for the k-th item of [m]. *)
Definition submenuAnchor (d : Dom) (m : ref) (k : nat) : Q * Q :=
  let '(l, wd, t) := itemOffset d m k in
  (if hasVerticalScrollbar d m then (l + wd + measuredScrollbarWidth d)%Q
   else (l + wd)%Q,
   (t - 5)%Q).

Lemma showSubMenu_show fuel d m s k w :
  showSubMenu fuel d m s k w =
  show fuel d s (fst (submenuAnchor d m k)) (snd (submenuAnchor d m k)) (Some m) w
    ≫= λ w1, Some (update m (setSubMenu (Some s)) w1).
Proof.
  unfold showSubMenu, submenuAnchor.
  destruct (itemOffset d m k) as [[l wd] t]. simpl.
  by destruct (hasVerticalScrollbar d m).
Qed.

(** X15: a completed mouseover on an item with a submenu leaves that
    submenu in the document, recorded in [subMenu] of the menu, with no
    submenu of its own open, and placed by [positionContent] for the
    anchor at the right edge of the item (further right by the width of a
    scrollbar when the menu has a vertical one), 5 pixels above the top of
    the item, with the menu as its parent. *)
Theorem hovered_submenu_is_placed (fuel : nat) (d : Dom) (m : ref) (k : nat)
    (item : IMenuItemOptions) (s : ref) (w w' : World) :
  menuItems (heap w m) !! k = Some item → type item ≠ Some separator →
  submenu item = Some s → s ≠ m →
  mouseover fuel d m k w = Some w' →
  let '(l, wd, t) := itemOffset d m k in
  let x := if hasVerticalScrollbar d m
           then (l + wd + measuredScrollbarWidth d)%Q else (l + wd)%Q in
  subMenu (heap w' m) = Some s ∧
  heap w' s =
    {| menuItems := menuItems (heap w s); subMenu := None; attached := true;
       css := Some (positionContent d (containerOffset d s) x (t - 5)%Q
                      (Some (fst (containerOffset d m)))) |}.
Proof.
  intros Hk Hsep Hs Hsm Hover.
  pose proof (mouseover_subMenu _ _ _ _ _ _ _ Hk Hsep Hover) as Hsub.
  rewrite Hs in Hsub.
  unfold mouseover in Hover.
  rewrite Hk, bool_decide_eq_false_2, Hs in Hover by done.
  apply bind_Some in Hover as (w1 & Hw1 & Hshow).
  assert (menuItems (heap w1 s) = menuItems (heap w s)) as Hitems.
  { case_bool_decide; [by injection Hw1 as <-|].
    destruct (hideSubMenu_spec _ _ _ _ Hw1) as (Hhid & _).
    apply (hidden_items _ _ Hhid). }
  rewrite showSubMenu_show in Hshow.
  apply bind_Some in Hshow as (w2 & Hw2 & [= <-]).
  destruct (show_chain _ _ _ _ _ _ _ _ Hw2) as (Hheap & _).
  unfold submenuAnchor in Hheap.
  destruct (itemOffset d m k) as [[l wd] t]. split; [done|].
  simpl. rewrite decide_False by done. rewrite Hheap, Hitems. simpl.
  by destruct (hasVerticalScrollbar d m).
Qed.

Lemma hovered_submenu_is_placed_witness :
  ∃ w',
    mouseover 2 screen 0%nat 1%nat afterHover = Some w' ∧
    subMenu (heap w' 0%nat) = Some 2%nat ∧
    heap w' 2%nat =
      {| menuItems := menuItems leaf; subMenu := None; attached := true;
         css := Some (positionContent screen (200, 300)%Q (10 + 200) (20 * 1 - 5)
                        (Some 200%Q)) |}.
Proof.
  eexists. split; [reflexivity|].
  apply (hovered_submenu_is_placed 2 screen 0%nat 1%nat
           (entry "Recent" (Some 2%nat)) 2%nat afterHover);
    [reflexivity|done|reflexivity|lia|reflexivity].
Defined.

(** X16: a mouseover on the item whose submenu is the open one does not
    leave it alone: the handler skips [hideSubMenu] but [showSubMenu] shows
    the submenu again, so the submenu and all menus open below it are
    taken out of the document, those below it are closed, and the submenu
    alone is appended again. *)
Theorem hovering_again_reopens (fuel : nat) (d : Dom) (m : ref) (k : nat)
    (item : IMenuItemOptions) (s : ref) (w w' : World) :
  menuItems (heap w m) !! k = Some item → type item ≠ Some separator →
  submenu item = Some s → subMenu (heap w m) = Some s →
  mouseover fuel d m k w = Some w' →
  log w' = log w ++ map Remove (chain fuel w s) ++ [Append s] ∧
  (∀ r, r ∈ chain fuel w s → r ≠ s → r ≠ m → heap w' r = closed (heap w r)) ∧
  (∀ r, r ∉ chain fuel w s → r ≠ m → heap w' r = heap w r) ∧
  attached (heap w' s) = true ∧ subMenu (heap w' m) = Some s.
Proof.
  intros Hk Hsep Hs Hopen Hover.
  pose proof (mouseover_subMenu _ _ _ _ _ _ _ Hk Hsep Hover) as Hsub.
  rewrite Hs in Hsub.
  unfold mouseover in Hover.
  rewrite Hk, bool_decide_eq_false_2, Hs, Hopen, bool_decide_eq_true_2 in Hover
    by done.
  simpl in Hover. rewrite showSubMenu_show in Hover.
  apply bind_Some in Hover as (w2 & Hw2 & [= <-]).
  destruct (show_chain _ _ _ _ _ _ _ _ Hw2) as (Hheap & Hrest & Hlog).
  assert (s ∈ chain fuel w s) as Hhead.
  { destruct fuel; [done|]. apply elem_of_cons. by left. }
  split; [done|]. split; [|split; [|split; [|done]]].
  - intros r Hr Hrs Hrm. simpl. rewrite decide_False by done.
    by rewrite Hrest, decide_True.
  - intros r Hr Hrm. simpl. rewrite decide_False by done.
    rewrite Hrest, decide_False; [done..|]. by intros ->.
  - simpl. case_decide; simpl; by rewrite Hheap.
Qed.

Lemma hovering_again_reopens_witness :
  ∃ w',
    mouseover 2 screen 0%nat 0%nat afterHover = Some w' ∧
    log w' = log afterHover ++ map Remove [1%nat] ++ [Append 1%nat] ∧
    (∀ r, r ∈ chain 2 afterHover 1%nat → r ≠ 1%nat → r ≠ 0%nat →
          heap w' r = closed (heap afterHover r)) ∧
    (∀ r, r ∉ chain 2 afterHover 1%nat → r ≠ 0%nat →
          heap w' r = heap afterHover r) ∧
    attached (heap w' 1%nat) = true ∧ subMenu (heap w' 0%nat) = Some 1%nat.
Proof.
  eexists. split; [reflexivity|].
  apply (hovering_again_reopens 2 screen 0%nat 0%nat
           (entry "New" (Some 1%nat)) 1%nat afterHover);
    [reflexivity|done|reflexivity|reflexivity|reflexivity].
Defined.

(** *** The glass pane *)

(** The glass panes in the document after a call: [show] calls
    [createGlassPane] right before it appends the container, which makes a
    pane unless there is one; [hideAll] removes every pane; removing a
    container removes none. *)
Definition panesAfter (n : nat) (op : DomOp) : nat :=
  match op with
  | Append _ => match n with O => 1 | _ => n end
  | Clear => 0
  | Remove _ => n
  end.

(** The glass panes in a document that had none, after the calls of a
    log. *)
Definition panes (ops : list DomOp) : nat := fold_left panesAfter ops 0%nat.

Lemma panes_snoc ops op : panes (ops ++ [op]) = panesAfter (panes ops) op.
Proof. unfold panes. by rewrite fold_left_app. Qed.

Lemma panes_removes ops c : panes (ops ++ map Remove c) = panes ops.
Proof.
  unfold panes. rewrite fold_left_app. generalize (fold_left panesAfter ops 0%nat).
  induction c as [|r c IH]; intros n; simpl; [done|]. apply IH.
Qed.

(** At most one pane, and no menu in the document without one. *)
Definition paned (w : World) : Prop :=
  (panes (log w) ≤ 1)%nat ∧
  (panes (log w) = 0%nat → ∀ r, attached (heap w r) = false).

Lemma hide_paned fuel m w w' :
  hide fuel m w = Some w' → paned w → paned w' ∧ panes (log w') = panes (log w).
Proof.
  intros Hhide [Hle Hnone].
  destruct (hide_chain _ _ _ _ Hhide) as [_ Hlog].
  destruct (hide_spec _ _ _ _ Hhide) as (Hhid & _).
  assert (panes (log w') = panes (log w)) as Heq.
  { by rewrite Hlog, panes_removes. }
  split; [|done]. split; [lia|]. rewrite Heq. intros H0 r.
  destruct (attached (heap w' r)) eqn:Hr; [|done].
  apply (hidden_attached _ _ Hhid) in Hr. by rewrite Hnone in Hr.
Qed.

Lemma hideSubMenu_paned fuel m w w' :
  hideSubMenu fuel m w = Some w' → paned w → paned w'.
Proof.
  unfold hideSubMenu, hideSubMenuWith.
  destruct (subMenu (heap w m)) as [s|]; [|by intros [= <-]].
  destruct (hide fuel s w) as [w1|] eqn:Hhide; [|done]. intros [= <-] Hp.
  destruct (hide_paned _ _ _ _ Hhide Hp) as [[Hle Hnone] _].
  split; [done|]. intros H0 r. simpl. specialize (Hnone H0 r).
  by case_decide.
Qed.

Lemma show_paned fuel d m x y p w w' :
  show fuel d m x y p w = Some w' → paned w → panes (log w') = 1%nat.
Proof.
  intros Hshow [Hle _].
  destruct (show_chain _ _ _ _ _ _ _ _ Hshow) as (_ & _ & Hlog).
  rewrite Hlog, app_assoc, panes_snoc, panes_removes. simpl.
  destruct (panes (log w)) as [|[|n]]; [done|done|lia].
Qed.

Lemma showSubMenu_paned fuel d m s k w w' :
  showSubMenu fuel d m s k w = Some w' → paned w → panes (log w') = 1%nat.
Proof.
  rewrite showSubMenu_show. intros (w1 & Hshow & [= <-])%bind_Some Hp.
  by apply (show_paned _ _ _ _ _ _ _ _ Hshow).
Qed.

Lemma one_pane w : panes (log w) = 1%nat → paned w.
Proof. intros H1. split; [lia|]. rewrite H1. done. Qed.

Lemma step_paned fuel d ev w w' :
  step fuel d ev w = Some w' → paned w → paned w'.
Proof.
  destruct ev as [m x y|m k|m|]; simpl.
  - intros Hshow Hp. by eapply one_pane, show_paned.
  - unfold mouseover.
    destruct (menuItems (heap w m) !! k) as [item|]; [|by intros [= <-]].
    case_bool_decide; [by intros [= <-]|].
    destruct (submenu item) as [s|]; [|apply hideSubMenu_paned].
    intros (w1 & Hw1 & Hshow)%bind_Some Hp.
    eapply one_pane, showSubMenu_paned; [exact Hshow|].
    case_bool_decide; [by injection Hw1 as <-|].
    by eapply hideSubMenu_paned.
  - intros Hhide Hp. by destruct (hide_paned _ _ _ _ Hhide Hp).
  - intros [= <-] _. split; simpl; [|done].
    rewrite panes_snoc. simpl. lia.
Qed.

(** X17: the document never holds two glass panes, and a menu is in the
    document only while the pane is; but [hide] does not remove the pane:
    the panes after a completed [hide] are the panes before it, so the
    pane made by [show] stays until [hideAll] runs.  This holds in every
    state reached from a page without pane and without menus in the
    document. *)
Theorem glass_pane_outlives_hide (fuel : nat) (d : Dom) (w0 w : World) :
  log w0 = [] → (∀ r, attached (heap w0 r) = false) →
  reachable fuel d w0 w →
  (panes (log w) ≤ 1)%nat ∧
  (∀ r, attached (heap w r) = true → panes (log w) = 1%nat) ∧
  (∀ m w', hide fuel m w = Some w' → panes (log w') = panes (log w)) ∧
  (∀ m x y p w', show fuel d m x y p w = Some w' → panes (log w') = 1%nat) ∧
  panes (log (hideAll w)) = 0%nat.
Proof.
  intros Hlog Hdet Hreach.
  assert (paned w) as Hp.
  { induction Hreach as [|w ev w' _ IH _ Hstep].
    - split; [rewrite Hlog; unfold panes; simpl; lia|done].
    - by eapply step_paned. }
  split; [apply Hp|]. split; [|split; [|split]].
  - intros r Hr. destruct Hp as [Hle Hnone].
    destruct (panes (log w)) as [|[|n]]; [|done|lia].
    by rewrite Hnone in Hr.
  - intros m w' Hhide. by destruct (hide_paned _ _ _ _ Hhide Hp).
  - intros m x y p w' Hshow. by eapply show_paned.
  - simpl. by rewrite panes_snoc.
Qed.

Lemma glass_pane_outlives_hide_witness :
  ∃ w',
    hide 2 0%nat afterHover = Some w' ∧
    (∀ r, attached (heap w' r) = false) ∧
    panes (log w') = 1%nat ∧
    (panes (log afterHover) ≤ 1)%nat ∧
    (∀ r, attached (heap afterHover r) = true → panes (log afterHover) = 1%nat) ∧
    (∀ m w', hide 2 m afterHover = Some w' →
             panes (log w') = panes (log afterHover)) ∧
    (∀ m x y p w', show 2 screen m x y p afterHover = Some w' →
                   panes (log w') = 1%nat) ∧
    panes (log (hideAll afterHover)) = 0%nat.
Proof.
  eexists. split; [reflexivity|].
  split; [by intros [|[|[|r]]]|]. split; [reflexivity|].
  apply (glass_pane_outlives_hide 2 screen page afterHover);
    [reflexivity|by intros [|r]|apply afterHover_reachable].
Defined.

(** *** The highlight *)

(** Item elements are objects as well; [highlight] compares them by
    identity. *)
Definition el : Type := nat.

(** [highlighted] of a menu and the elements that carry the class
    [active]. *)
Record Lit : Type := {
  highlighted : option el;
  active : el → bool;
}.

Definition addClass (e : el) (a : el → bool) : el → bool :=
  λ x, if decide (x = e) then true else a x.

Definition rmClass (e : el) (a : el → bool) : el → bool :=
  λ x, if decide (x = e) then false else a x.

(** [highlight($el)] *)
Definition highlight (e : option el) (h : Lit) : Lit :=
  if decide (highlighted h = e) then h
  else
    let a1 := match e with Some x => addClass x (active h) | None => active h end in
    let a2 := match highlighted h with Some x => rmClass x a1 | None => a1 end in
    {| highlighted := e; active := a2 |}.

(** The mouseleave handler of an item, given [this.subMenu] and
    [item.submenu]. *)
Definition mouseleave (sub itemSub : option ref) (h : Lit) : Lit :=
  if negb (bool_decide (is_Some sub)) || negb (bool_decide (sub = itemSub))
  then highlight None h else h.

(** What the pointer does to the items of one menu: it comes over an
    element, or leaves an item. *)
Inductive Pointer : Type :=
  | Over (e : el)
  | Leave (sub itemSub : option ref).

Definition point (h : Lit) (ev : Pointer) : Lit :=
  match ev with
  | Over e => highlight (Some e) h
  | Leave sub itemSub => mouseleave sub itemSub h
  end.

(** A menu whose items were never touched. *)
Definition unlit : Lit := {| highlighted := None; active := λ _, false |}.

(** The elements with the class are exactly the highlighted one. *)
Definition single (h : Lit) : Prop :=
  ∀ e, active h e = true ↔ highlighted h = Some e.

Lemma highlight_single e h : single h → single (highlight e h).
Proof.
  intros Hs. unfold highlight. case_decide as Hsame; [done|].
  intros x. specialize (Hs x). simpl.
  destruct (highlighted h) as [old|] eqn:Hold.
  - unfold rmClass. case_decide as Hx.
    + subst x. split; [done|]. congruence.
    + destruct e as [new|].
      * unfold addClass. case_decide as Hn; [by subst|].
        rewrite Hs. split; congruence.
      * rewrite Hs. split; congruence.
  - destruct e as [new|]; [|done].
    unfold addClass. case_decide as Hn; [by subst|].
    rewrite Hs. split; congruence.
Qed.

Lemma point_single h ev : single h → single (point h ev).
Proof.
  intros Hs. destruct ev as [e|sub itemSub]; simpl.
  - by apply highlight_single.
  - unfold mouseleave. destruct (_ || _); [by apply highlight_single|done].
Qed.

Lemma fold_left_single evs : ∀ h, single h → single (fold_left point evs h).
Proof.
  induction evs as [|ev evs IH]; intros h Hs; simpl; [done|].
  by apply IH, point_single.
Qed.

(** X18: the highlight is a single selection.  After any pointer
    events on a menu the elements that carry the class [active] are
    exactly the one in [highlighted]; a mouseover makes its element that
    one; a mouseleave keeps the highlight when the item's submenu is the
    open one and clears it in every other case. *)
Theorem single_highlight (evs : list Pointer) :
  let h := fold_left point evs unlit in
  (∀ e, active h e = true ↔ highlighted h = Some e) ∧
  (∀ e1 e2, active h e1 = true → active h e2 = true → e1 = e2) ∧
  (∀ e, highlighted (point h (Over e)) = Some e) ∧
  (∀ sub itemSub,
     highlighted (point h (Leave sub itemSub)) =
     if bool_decide (is_Some sub ∧ sub = itemSub) then highlighted h else None).
Proof.
  intros h.
  assert (single h) as Hs.
  { subst h. apply fold_left_single. by intros e. }
  split; [done|]. split; [|split].
  - intros e1 e2 H1%Hs H2%Hs. congruence.
  - intros e. simpl. unfold highlight. by case_decide.
  - intros sub itemSub. simpl. unfold mouseleave, highlight.
    repeat case_bool_decide; simpl; try case_decide; try done; tauto.
Qed.

End MenuMore.
